(** * Exact odds for Exchange Hi Lo: the probability engine of [prob.c]

    A shallow embedding of [src/prob.c] (and of the query loop of
    [src/main.c]) together with the properties of the specification that
    can be settled on it.

    The C program works on three heap arrays (the triangular path-count
    [matrix], the [permutations] table and the [probabilities] vector of
    GMP rationals) and writes its answer into two caller-allocated
    buffers.  The embedding keeps that shape: a [heap] record holds the
    five arrays, every function of [prob.c] is a computation in a small
    state-and-fault monad over that heap, every array access is bounds
    checked, and every [int]/[long] operation goes through a
    normalisation step that either wraps around (the machine) or traps
    (to detect that a value did not fit). *)

From Stdlib Require Import ZArith QArith Lia List Bool.
From stdpp Require Import base list.

Open Scope Z_scope.

(* ================================================================== *)
(** ** Fixed-width integers *)

Module Machine.

(** Half the range of [int] and of [long], and the range of
    [unsigned long]. *)
Definition int_half : Z := Eval cbv in 2 ^ 31.
Definition long_half : Z := Eval cbv in 2 ^ 63.
Definition ulong_range : Z := Eval cbv in 2 ^ 64.

Definition INT_MAX : Z := int_half - 1.
Definition INT_MIN : Z := - int_half.

(** [x] is representable as a signed integer of range
    [- half .. half - 1]. *)
Definition fits (half x : Z) : bool := (- half <=? x) && (x <? half).

(** Two's complement reduction of [x] to that range: a value that fits
    is unchanged, any other is taken modulo [2 * half]. *)
Definition wrap (half x : Z) : Z :=
  if fits half x then x else (x + half) mod (2 * half) - half.

(** Reduction to an unsigned integer below [range], and its range
    check. *)
Definition ufits (range x : Z) : bool := (0 <=? x) && (x <? range).
Definition uwrap (range x : Z) : Z :=
  if ufits range x then x else x mod range.

(** How arithmetic results are brought back into their type: [Wrap] is
    the machine (results are reduced modulo the range of the type);
    [Trap] stops the computation with [Overflow] as soon as a result does
    not fit. *)
Inductive arith : Set := Wrap | Trap.

End Machine.
Import Machine.

(* ================================================================== *)
(** ** GMP rationals *)

(** An [mpq_t]: numerator and denominator are arbitrary-precision
    integers.  Between [mpq_set_si] and [mpq_canonicalize] the value need
    not be in lowest terms and the denominator may be zero. *)
Record mpq : Set := Mpq { mpq_numref : Z; mpq_denref : Z }.

(** [mpq_init] sets the value to 0/1. *)
Definition mpq_zero : mpq := Mpq 0 1.

(** Lowest terms with a positive denominator. *)
Definition canonical (q : mpq) : mpq :=
  let g := Z.gcd (mpq_numref q) (mpq_denref q) in
  Mpq (Z.sgn (mpq_denref q) * mpq_numref q / g) (Z.abs (mpq_denref q) / g).

(** [mpq_add]: the sum, in canonical form. *)
Definition mpq_add (a b : mpq) : mpq :=
  canonical (Mpq (mpq_numref a * mpq_denref b + mpq_numref b * mpq_denref a)
                 (mpq_denref a * mpq_denref b)).

(** The rational number a canonical [mpq] stands for. *)
Definition mpq_value (q : mpq) : Q :=
  mpq_numref q # Z.to_pos (mpq_denref q).

(* ================================================================== *)
(** ** The heap and the monad of computations *)

Inductive array : Set :=
| A_matrix                (* the array of row pointers *)
| A_row (stage : Z)       (* the row [matrix[stage]] *)
| A_probabilities
| A_permutations
| A_numeratorsResult
| A_denominatorsResult.

Inductive fault : Set :=
| OutOfBounds (a : array) (i : Z)
| DivisionByZero
| Overflow
| AssertionFailed.

(** The arrays of one run.  An array that has not been allocated (or has
    been freed) is the empty list: every access to it is out of bounds. *)
Record heap : Set := Heap {
  matrix : list (list Z);
  probabilities : list mpq;
  permutations : list Z;
  numeratorsResult : list Z;
  denominatorsResult : list Z
}.

Definition empty_heap : heap := Heap [] [] [] [] [].

Inductive outcome (A : Type) : Type :=
| Done (a : A) (h : heap)
| Fault (f : fault) (h : heap).
Arguments Done {A} a h.
Arguments Fault {A} f h.

Definition M (A : Type) : Type := heap -> outcome A.

Definition ret {A} (a : A) : M A := fun h => Done a h.
Definition raise {A} (f : fault) : M A := fun h => Fault f h.
Definition bind {A B} (c : M A) (k : A -> M B) : M B :=
  fun h => match c h with
           | Done a h' => k a h'
           | Fault f h' => Fault f h'
           end.
Definition get : M heap := fun h => Done h h.
Definition put (h : heap) : M unit := fun _ => Done tt h.

Declare Scope prog_scope.
Delimit Scope prog_scope with prog.
Notation "x <- c ;; k" := (bind c (fun x => k))
  (at level 100, c at next level, right associativity) : prog_scope.
Notation "c ;; k" := (bind c (fun _ => k))
  (at level 100, right associativity) : prog_scope.
Open Scope prog_scope.

(** The value and the final heap of a finished computation. *)
Definition result {A} (o : outcome A) : option A :=
  match o with Done a _ => Some a | Fault _ _ => None end.
Definition final {A} (o : outcome A) : heap :=
  match o with Done _ h => h | Fault _ h => h end.
Definition fault_of {A} (o : outcome A) : option fault :=
  match o with Done _ _ => None | Fault f _ => Some f end.

(** *** Loops

    [for_acc lo hi body s] is [for (i = lo; i < hi; i++) s = body(i, s)]:
    the bounds of every loop of [prob.c] are fixed before the loop starts
    and the counter is only changed by the increment. *)
Fixpoint iterate {State} (n : nat) (i : Z) (body : Z -> State -> M State) (s : State)
  : M State :=
  match n with
  | O => ret s
  | S n' => s' <- body i s ;; iterate n' (i + 1) body s'
  end.

Definition for_acc {State} (lo hi : Z) (body : Z -> State -> M State) (s : State)
  : M State :=
  iterate (Z.to_nat (hi - lo)) lo body s.

Definition for_ (lo hi : Z) (body : Z -> M unit) : M unit :=
  for_acc lo hi (fun i _ => body i) tt.

(** [for (n = hi; n >= 0; n--) s = body(n, s)]. *)
Fixpoint iterate_down {State} (n : nat) (body : Z -> State -> M State) (s : State)
  : M State :=
  match n with
  | O => ret s
  | S n' => s' <- body (Z.of_nat n') s ;; iterate_down n' body s'
  end.

Definition for_down {State} (hi : Z) (body : Z -> State -> M State) (s : State)
  : M State :=
  iterate_down (Z.to_nat (hi + 1)) body s.

(** *** Array accesses *)

Definition index {A} (l : list A) (i : Z) : option A :=
  if 0 <=? i then l !! Z.to_nat i else None.

Definition update {A} (l : list A) (i : Z) (v : A) : option (list A) :=
  if (0 <=? i) && (i <? Z.of_nat (length l))
  then Some (<[Z.to_nat i := v]> l) else None.

Definition set_matrix (m : list (list Z)) (h : heap) : heap :=
  Heap m (probabilities h) (permutations h)
       (numeratorsResult h) (denominatorsResult h).
Definition set_probabilities (p : list mpq) (h : heap) : heap :=
  Heap (matrix h) p (permutations h)
       (numeratorsResult h) (denominatorsResult h).
Definition set_permutations (p : list Z) (h : heap) : heap :=
  Heap (matrix h) (probabilities h) p
       (numeratorsResult h) (denominatorsResult h).
Definition set_numeratorsResult (r : list Z) (h : heap) : heap :=
  Heap (matrix h) (probabilities h) (permutations h)
       r (denominatorsResult h).
Definition set_denominatorsResult (r : list Z) (h : heap) : heap :=
  Heap (matrix h) (probabilities h) (permutations h)
       (numeratorsResult h) r.

(** [matrix[stage][i]] as an rvalue. *)
Definition load_matrix (stage i : Z) : M Z := fun h =>
  match index (matrix h) stage with
  | None => Fault (OutOfBounds A_matrix stage) h
  | Some row =>
      match index row i with
      | None => Fault (OutOfBounds (A_row stage) i) h
      | Some v => Done v h
      end
  end.

(** [matrix[stage][i] = v]. *)
Definition store_matrix (stage i v : Z) : M unit := fun h =>
  match index (matrix h) stage with
  | None => Fault (OutOfBounds A_matrix stage) h
  | Some row =>
      match update row i v with
      | None => Fault (OutOfBounds (A_row stage) i) h
      | Some row' =>
          Done tt (set_matrix (<[Z.to_nat stage := row']> (matrix h)) h)
      end
  end.

(** [matrix[stage] = row], the assignment of a freshly allocated row. *)
Definition store_row (stage : Z) (row : list Z) : M unit := fun h =>
  match update (matrix h) stage row with
  | None => Fault (OutOfBounds A_matrix stage) h
  | Some m => Done tt (set_matrix m h)
  end.

Definition load_probabilities (n : Z) : M mpq := fun h =>
  match index (probabilities h) n with
  | None => Fault (OutOfBounds A_probabilities n) h
  | Some q => Done q h
  end.

Definition store_probabilities (n : Z) (q : mpq) : M unit := fun h =>
  match update (probabilities h) n q with
  | None => Fault (OutOfBounds A_probabilities n) h
  | Some p => Done tt (set_probabilities p h)
  end.

Definition load_permutations (i : Z) : M Z := fun h =>
  match index (permutations h) i with
  | None => Fault (OutOfBounds A_permutations i) h
  | Some v => Done v h
  end.

Definition store_permutations (i v : Z) : M unit := fun h =>
  match update (permutations h) i v with
  | None => Fault (OutOfBounds A_permutations i) h
  | Some p => Done tt (set_permutations p h)
  end.

Definition store_numeratorsResult (i v : Z) : M unit := fun h =>
  match update (numeratorsResult h) i v with
  | None => Fault (OutOfBounds A_numeratorsResult i) h
  | Some r => Done tt (set_numeratorsResult r h)
  end.

Definition store_denominatorsResult (i v : Z) : M unit := fun h =>
  match update (denominatorsResult h) i v with
  | None => Fault (OutOfBounds A_denominatorsResult i) h
  | Some r => Done tt (set_denominatorsResult r h)
  end.

(** [calloc(n, ...)]: [n] zeroed cells; a request that is not positive
    yields no usable cell. *)
Definition calloc {A} (n : Z) (zero : A) : list A := replicate (Z.to_nat n) zero.

(* ================================================================== *)
(** ** The functions of [prob.c] *)

Section Program.

Variable mode : arith.

(** The result of an [int], [long] or [unsigned long] operation. *)
Definition int_ (x : Z) : M Z :=
  match mode with
  | Wrap => ret (wrap int_half x)
  | Trap => if fits int_half x then ret x else raise Overflow
  end.

Definition long_ (x : Z) : M Z :=
  match mode with
  | Wrap => ret (wrap long_half x)
  | Trap => if fits long_half x then ret x else raise Overflow
  end.

Definition ulong_ (x : Z) : M Z :=
  match mode with
  | Wrap => ret (uwrap ulong_range x)
  | Trap => if ufits ulong_range x then ret x else raise Overflow
  end.

(** *** GMP calls on [probabilities[n]] *)

(** [mpq_set_si(probabilities[n], op1, op2)]: [op2] is received as an
    [unsigned long]. *)
Definition mpq_set_si (n op1 op2 : Z) : M unit :=
  den <- ulong_ op2 ;;
  store_probabilities n (Mpq op1 den).

(** [mpq_canonicalize(probabilities[n])] divides by the denominator's
    gcd with the numerator; a zero denominator is a division by zero. *)
Definition mpq_canonicalize (n : Z) : M unit :=
  q <- load_probabilities n ;;
  if mpq_denref q =? 0 then raise DivisionByZero
  else store_probabilities n (canonical q).

(** [mpz_get_ui]: the least significant bits of the absolute value. *)
Definition mpz_get_ui (z : Z) : M Z :=
  match mode with
  | Wrap => ret (uwrap ulong_range (Z.abs z))
  | Trap => if ufits ulong_range z then ret z else raise Overflow
  end.

(** *** Allocation *)

Definition createMatrix (size : Z) : M unit :=
  rows <- int_ (size - 1) ;;
  h <- get ;;
  put (set_matrix (calloc rows []) h) ;;
  for_ 0 rows (fun i =>
    len <- int_ (size - i) ;;
    store_row i (calloc len 0)).

Definition getLengthOfProbabilities (size : Z) : M Z :=
  int_ (size - 1).

Definition createProbabilities (size : Z) : M unit :=
  lengthOfProbabilities <- getLengthOfProbabilities size ;;
  h <- get ;;
  put (set_probabilities (calloc lengthOfProbabilities (Mpq 0 0)) h) ;;
  for_ 0 lengthOfProbabilities (fun i =>
    store_probabilities i mpq_zero).

Definition createProbabilitiesResult (size : Z) : M (list Z) :=
  len <- getLengthOfProbabilities size ;;
  ret (calloc len 0).

(** *** The path-count table *)

Definition initialiseFirstStage (size numberLower : Z) : M unit :=
  numberHigher <- int_ (size - numberLower) ;;
  let k := if numberHigher >=? numberLower then numberLower else 0 in
  let l := if numberHigher >=? numberLower then size else numberLower in
  for_ k l (fun i => store_matrix 0 i 1).

Definition getNumberCardsLeftAfterDealing (size stage : Z) : M Z :=
  dealt <- int_ (stage + 1) ;;
  int_ (size - dealt).

Definition getNumberPathsLeadingTo (size stage numberLower : Z) : M Z :=
  previousStage <- int_ (stage - 1) ;;
  numberCardsLeftBeforeDealing <-
    getNumberCardsLeftAfterDealing size previousStage ;;
  up <- int_ (numberCardsLeftBeforeDealing + 1) ;;
  let limit := up ÷ 2 in
  kl <- (if Z.rem numberCardsLeftBeforeDealing 2 =? 0 then
           if numberLower <=? limit then
             k <- int_ (numberLower + 1) ;;
             l <- int_ (limit + 1) ;;
             ret (k, l)
           else
             k <- int_ (limit + 1) ;;
             l <- int_ (numberLower + 1) ;;
             ret (k, l)
         else
           if numberLower <? limit then
             k <- int_ (numberLower + 1) ;;
             ret (k, limit)
           else if numberLower =? limit then
             l <- int_ (limit + 1) ;;
             ret (limit, l)
           else
             l <- int_ (numberLower + 1) ;;
             ret (limit, l)) ;;
  sum <- for_acc 0 (fst kl) (fun i sum =>
           x <- load_matrix previousStage i ;;
           int_ (sum + x)) 0 ;;
  for_acc (snd kl) (numberCardsLeftBeforeDealing + 1) (fun i sum =>
    x <- load_matrix previousStage i ;;
    int_ (sum + x)) sum.

Definition initialiseStage (size stage : Z) : M unit :=
  numberCardsLeft <- getNumberCardsLeftAfterDealing size stage ;;
  for_ 0 (numberCardsLeft + 1) (fun i =>
    paths <- getNumberPathsLeadingTo size stage i ;;
    store_matrix stage i paths).

Definition calculateMatrix (size numberPlayable : Z) : M unit :=
  initialiseFirstStage size numberPlayable ;;
  stages <- int_ (size - 1) ;;
  for_ 1 stages (fun i => initialiseStage size i).

(** *** The permutation table *)

Definition getLengthOfPermutations (size : Z) : M Z :=
  int_ (size - 2).

Definition getNumberShuffles (size : Z) : M Z :=
  lengthOfPermutations <- getLengthOfPermutations size ;;
  last <- int_ (lengthOfPermutations - 1) ;;
  load_permutations last.

Definition createPermutations (size : Z) : M unit :=
  len <- getLengthOfPermutations size ;;
  h <- get ;;
  put (set_permutations (calloc len 0) h).

Definition calculatePermutations (size : Z) : M unit :=
  lengthOfPermutations <- getLengthOfPermutations size ;;
  if size >? 0 then
    below <- int_ (size - 1) ;;
    first <- int_ (size * below) ;;
    store_permutations 0 first ;;
    for_ 1 lengthOfPermutations (fun i =>
      before <- int_ (i - 1) ;;
      previous <- load_permutations before ;;
      left <- int_ (size - i) ;;
      factor <- int_ (left - 1) ;;
      next <- long_ (previous * factor) ;;
      store_permutations i next)
  else ret tt.

(** *** The probabilities *)

Definition numberFailingCards (numberCardsLeft numberLower : Z) : M Z :=
  others <- int_ (numberCardsLeft - numberLower) ;;
  numberHigher <- int_ (others - 1) ;;
  ret (if numberHigher >=? numberLower then numberLower else numberHigher).

Definition calculateInitialProbabilities (size : Z) : M unit :=
  outcomes <- int_ (size - 2) ;;
  for_ 0 outcomes (fun n =>
    numberCardsLeft <- int_ (size - n) ;;
    sum <- for_acc 0 numberCardsLeft (fun numberLower sum =>
             paths <- load_matrix n numberLower ;;
             failing <- numberFailingCards numberCardsLeft numberLower ;;
             ways <- int_ (paths * failing) ;;
             long_ (sum + ways)) 0 ;;
    deals <- load_permutations n ;;
    mpq_set_si n sum deals ;;
    mpq_canonicalize n).

Definition calculateFinalProbability (size : Z) : M unit :=
  lengthOfProbabilities <- getLengthOfProbabilities size ;;
  stage <- int_ (size - 2) ;;
  lower <- load_matrix stage 0 ;;
  higher <- load_matrix stage 1 ;;
  sum <- int_ (lower + higher) ;;
  numberShuffles <- getNumberShuffles size ;;
  last <- int_ (lengthOfProbabilities - 1) ;;
  mpq_set_si last sum numberShuffles ;;
  mpq_canonicalize last.

Definition calculateInternalProbabilities (size : Z) : M unit :=
  calculateInitialProbabilities size ;;
  calculateFinalProbability size.

Definition accumulateProbabilities (size : Z) : M unit :=
  lengthOfProbabilities <- getLengthOfProbabilities size ;;
  start <- int_ (lengthOfProbabilities - 1) ;;
  for_down start (fun n sum =>
    oldProbability <- load_probabilities n ;;
    store_probabilities n (mpq_add oldProbability sum) ;;
    ret (mpq_add sum oldProbability)) mpq_zero ;;
  ret tt.

Definition convertToNumeratorsAndDenominators (size : Z) : M unit :=
  lengthOfProbabilities <- getLengthOfProbabilities size ;;
  for_ 0 lengthOfProbabilities (fun i =>
    q <- load_probabilities i ;;
    numerator <- mpz_get_ui (mpq_numref q) ;;
    denominator <- mpz_get_ui (mpq_denref q) ;;
    store_numeratorsResult i numerator ;;
    store_denominatorsResult i denominator).

(** *** Release *)

Definition free_matrix : M unit :=
  h <- get ;; put (set_matrix [] h).

Definition freeProbabilities (size : Z) : M unit :=
  lengthOfProbabilities <- getLengthOfProbabilities size ;;
  h <- get ;; put (set_probabilities [] h).

Definition free_permutations : M unit :=
  h <- get ;; put (set_permutations [] h).

(** *** The entry point *)

Definition calculateProbabilities (size numberLower : Z) : M unit :=
  createMatrix size ;;
  createProbabilities size ;;
  createPermutations size ;;
  calculateMatrix size numberLower ;;
  calculatePermutations size ;;
  calculateInternalProbabilities size ;;
  accumulateProbabilities size ;;
  convertToNumeratorsAndDenominators size ;;
  free_matrix ;;
  freeProbabilities size ;;
  free_permutations.

(** The first five statements of [calculateProbabilities]: allocation
    and the two tables. *)
Definition build_tables (size numberLower : Z) : M unit :=
  createMatrix size ;;
  createProbabilities size ;;
  createPermutations size ;;
  calculateMatrix size numberLower ;;
  calculatePermutations size.

(** A caller of the interface: it allocates the two result buffers with
    [createProbabilitiesResult size], calls [calculateProbabilities]
    and reads the (numerator, denominator) pairs back. *)
Definition computeProbabilities (size numberLower : Z) : M (list (Z * Z)) :=
  numerators <- createProbabilitiesResult size ;;
  denominators <- createProbabilitiesResult size ;;
  h <- get ;;
  put (set_denominatorsResult denominators
         (set_numeratorsResult numerators h)) ;;
  calculateProbabilities size numberLower ;;
  h' <- get ;;
  ret (zip (numeratorsResult h') (denominatorsResult h')).

End Program.

(** The machine's run of a query from a heap holding no array yet. *)
Definition run (size numberLower : Z) : outcome (list (Z * Z)) :=
  computeProbabilities Wrap size numberLower empty_heap.

(** [returns P o]: the run [o] finishes, and its value satisfies [P]. *)
Definition returns {A} (P : A -> Prop) (o : outcome A) : Prop :=
  match o with
  | Done a _ => P a
  | Fault _ _ => False
  end.

(** The pair reported at index [n], if the run reports one. *)
Definition reported (o : outcome (list (Z * Z))) (n : nat) : option (Z * Z) :=
  match o with
  | Done v _ => v !! n
  | Fault _ _ => None
  end.

(** *** The query loop of [main.c] *)

Definition MAX_SIZE : Z := 13.

(** One round of the [while] loop of [main]: the two result buffers were
    allocated before the loop with [createProbabilitiesResult(MAX_SIZE)];
    the round asserts [size <= MAX_SIZE], computes, and prints the first
    [getLengthOfProbabilities(size)] pairs. *)
Definition main_round (size numberLower : Z) : M (list (Z * Z)) :=
  if size <=? MAX_SIZE then
    lengthOfProbabilities <- getLengthOfProbabilities Wrap size ;;
    calculateProbabilities Wrap size numberLower ;;
    h <- get ;;
    ret (take (Z.to_nat lengthOfProbabilities)
              (zip (numeratorsResult h) (denominatorsResult h)))
  else raise AssertionFailed.

Definition main_heap : heap :=
  Heap [] [] [] (calloc (MAX_SIZE - 1) 0) (calloc (MAX_SIZE - 1) 0).

(* ================================================================== *)
(** ** Vocabulary of the specification *)

(** The fraction a reported (numerator, denominator) pair stands for. *)
Definition fraction (p : Z * Z) : Q := fst p # Z.to_pos (snd p).

(** A pair in lowest terms. *)
Definition reduced (n d : Z) : Z * Z := (n / Z.gcd n d, d / Z.gcd n d).

Definition sum_list (l : list Z) : Z := foldr Z.add 0 l.

(** The sum of [row] over the indices [lo <= i < hi]. *)
Definition sum_between (row : list Z) (lo hi : Z) : Z :=
  sum_list (take (Z.to_nat (hi - lo)) (drop (Z.to_nat lo) row)).

(** [ceil (a / b)]. *)
Definition ceil_div (a b : Z) : Z := - ((- a) / b).

(** The cut points of section 4.2, as the specification words them. *)
Definition cut_points (before limit t : Z) : Z * Z :=
  if Z.even before then
    if t <=? limit then (t + 1, limit + 1) else (limit + 1, t + 1)
  else
    if t <? limit then (t + 1, limit)
    else if t =? limit then (limit, limit + 1)
    else (limit, t + 1).

(** The sum section 4.2 gives for the entry at stage [s] and lower-count
    [t], from the list [previous] of the entries of stage [s - 1]. *)
Definition recurrence_total (size : Z) (previous : list Z) (s t : Z) : Z :=
  let before := size - s in
  let limit := ceil_div before 2 in
  let k := fst (cut_points before limit t) in
  let l := snd (cut_points before limit t) in
  sum_between previous 0 k + sum_between previous l (before + 1).

(** All these sums of the table [m] are representable as [int]. *)
Definition totals_fit (size : Z) (m : list (list Z)) : Prop :=
  Forall (fun s =>
            Forall (fun t =>
                      fits int_half
                           (recurrence_total size
                              (default [] (index m (s - 1))) s t) = true)
                   (seqZ 0 (size - s)))
         (seqZ 1 (size - 2)).

(** The first row of section 4.2, as the specification words it. *)
Definition first_row_entry (size numberLower i : Z) : Z :=
  if size - numberLower >=? numberLower
  then (if (numberLower <=? i) && (i <=? size - 1) then 1 else 0)
  else (if (0 <=? i) && (i <=? numberLower - 1) then 1 else 0).

Definition sum_Q (l : list Q) : Q := foldr Qplus 0%Q l.

(** Section 8, range: numerator <= denominator, both >= 0. *)
Definition in_unit_interval (p : Z * Z) : Prop :=
  0 <= fst p /\ fst p <= snd p /\ 0 <= snd p.

(** Section 8, monotonicity: [result[n] >= result[n+1]] for all [n]. *)
Definition non_increasing (v : list (Z * Z)) : Prop :=
  forall (n : nat) a b,
    v !! n = Some a -> v !! S n = Some b -> (fraction b <= fraction a)%Q.

(** The same, by recursion on the vector. *)
Fixpoint descending (v : list Q) : Prop :=
  match v with
  | a :: (b :: _) as v' => (b <= a)%Q /\ descending v'
  | _ => True
  end.

(** Section 8, mass conservation: the probability that the first
    prediction made from the initial state is correct,
    [(sum_i pathCount[0][i]) / size]. *)
Definition first_prediction_probability (table : list (list Z)) (size : Z) : Q :=
  sum_list (default [] (head table)) # Z.to_pos size.

(** The first entry of the reported vector stands for [q]. *)
Definition first_entry_is (q : Q) (v : list (Z * Z)) : Prop :=
  match v with
  | p :: _ => (fraction p == q)%Q
  | [] => False
  end.

(** The inputs with [lo <= size <= hi] and [0 <= numberLower <= size]. *)
Definition inputs (lo hi : Z) : list (Z * Z) :=
  size ← seqZ lo (hi - lo + 1);
  numberLower ← seqZ 0 (size + 1);
  [(size, numberLower)].

(** The stages of a run, for looking at the arrays in between. *)
Definition after_matrix (size numberLower : Z) : outcome unit :=
  (createMatrix Wrap size ;; calculateMatrix Wrap size numberLower) empty_heap.

Definition after_tables (size numberLower : Z) : outcome unit :=
  build_tables Wrap size numberLower empty_heap.

Definition after_initial (size numberLower : Z) : outcome unit :=
  (build_tables Wrap size numberLower ;;
   calculateInitialProbabilities Wrap size) empty_heap.

Definition after_internal (size numberLower : Z) : outcome unit :=
  (build_tables Wrap size numberLower ;;
   calculateInternalProbabilities Wrap size) empty_heap.

Definition after_accumulation (size numberLower : Z) : outcome unit :=
  (build_tables Wrap size numberLower ;;
   calculateInternalProbabilities Wrap size ;;
   accumulateProbabilities Wrap size) empty_heap.

(* ================================================================== *)
(** ** The path-count table as a function

    For the proofs about the table the list of rows is read as a
    function from (stage, lower-count) to the entry. *)

(** [m] is the triangular table of a deck of [size] cards, with entry
    [f s t] at stage [s] and lower-count [t]. *)
Definition table_is (size : Z) (f : Z -> Z -> Z) (m : list (list Z)) : Prop :=
  Z.of_nat (length m) = size - 1 /\
  forall s, 0 <= s < size - 1 ->
    exists row, index m s = Some row /\
                Z.of_nat (length row) = size - s /\
                forall t, 0 <= t < size - s -> index row t = Some (f s t).

(** The table after [matrix[s][t] = v]. *)
Definition assign (f : Z -> Z -> Z) (s t v : Z) : Z -> Z -> Z :=
  fun s' t' => if (s' =? s) && (t' =? t) then v else f s' t'.

(** The first row [initialiseFirstStage] leaves, next to rows of zeros. *)
Definition first_stage (size numberLower : Z) : Z -> Z -> Z :=
  fun s t => if s =? 0 then first_row_entry size numberLower t else 0.

(** The sum of [f] over [lo <= i < hi]. *)
Definition sum_range (f : Z -> Z) (lo hi : Z) : Z :=
  sum_list (f <$> seqZ lo (hi - lo)).

(** The entry of section 4.2 for stage [s] and target [t], from the
    previous row [prev]. *)
Definition next_entry (size : Z) (prev : Z -> Z) (s t : Z) : Z :=
  let before := size - s in
  let kl := cut_points before (ceil_div before 2) t in
  wrap int_half (sum_range prev 0 (fst kl)
                 + sum_range prev (snd kl) (before + 1)).

(** The table [calculateMatrix] leaves: row 0 as initialised, and every
    later row computed from the row before it. *)
Definition recurrence (size : Z) (g : Z -> Z -> Z) (upto : Z) : Prop :=
  forall s t, 1 <= s < upto -> 0 <= t <= size - s - 1 ->
    g s t = next_entry size (g (s - 1)) s t.

(** The run stops on a fault while no path-count table has been built. *)
Definition rejected_before_tables {A} (o : outcome A) : Prop :=
  fault_of o <> None /\ matrix (final o) = [].

(* ================================================================== *)
(** ** The brute-force oracle of section 8

    Written from the words of the specification, not from [prob.c]: a
    labeled deck of [size] cards, card [c] having rank [c]; the card dealt
    before the run is known only through [numberLower], so that exactly
    the cards of rank below [numberLower] are lower than it.  Every
    ordered deal is enumerated and the majority-rule predictor of
    section 4.1 is replayed on it card by card. *)

Module BruteForce.

(** The most recently dealt card. *)
Inductive last_card : Set :=
| Initial (numberLower : nat)   (* the card dealt before the run *)
| Card (rank : nat).

Definition is_lower (last : last_card) (c : nat) : bool :=
  match last with
  | Initial numberLower => Nat.ltb c numberLower
  | Card rank => Nat.ltb c rank
  end.

Definition lower_count (last : last_card) (deck : list nat) : nat :=
  length (List.filter (is_lower last) deck).

(** Section 4.1: "higher" iff [numberHigher >= numberLower]. *)
Definition predicts_higher (last : last_card) (deck : list nat) : bool :=
  let numberLower := lower_count last deck in
  let numberHigher := (length deck - numberLower)%nat in
  Nat.leb numberLower numberHigher.

(** The deal of card [c] is a correct prediction iff its rank is on the
    predicted side. *)
Definition correct (last : last_card) (deck : list nat) (c : nat) : bool :=
  if predicts_higher last deck then negb (is_lower last c)
  else is_lower last c.

Definition remove_card (c : nat) (deck : list nat) : list nat :=
  List.filter (fun c' => negb (Nat.eqb c' c)) deck.

(** The number of deals of [deal], from the first on, at which the
    predictor was correct before its first wrong prediction. *)
Fixpoint streak (last : last_card) (deck deal : list nat) : nat :=
  match deal with
  | [] => O
  | c :: deal' =>
      if correct last deck c
      then S (streak (Card c) (remove_card c deck) deal')
      else O
  end.

(** The predictor was correct at every deal of [deal]. *)
Definition all_correct (last : last_card) (deck deal : list nat) : bool :=
  Nat.eqb (streak last deck deal) (length deal).

(** The lower-count once [deal] has been dealt. *)
Fixpoint final_lower_count (last : last_card) (deck deal : list nat) : nat :=
  match deal with
  | [] => lower_count last deck
  | c :: deal' => final_lower_count (Card c) (remove_card c deck) deal'
  end.

(** Each card of the deck together with the cards left without it. *)
Fixpoint picks (deck : list nat) : list (nat * list nat) :=
  match deck with
  | [] => []
  | c :: deck' => (c, deck') :: map (fun p => (fst p, c :: snd p)) (picks deck')
  end.

(** All ordered deals of [k] distinct cards. *)
Fixpoint deals (k : nat) (deck : list nat) : list (list nat) :=
  match k with
  | O => [[]]
  | S k' => p ← picks deck; map (cons (fst p)) (deals k' (snd p))
  end.

Definition labeled_deck (size : nat) : list nat := seq 0 size.

Definition count (P : nat -> bool) (l : list nat) : Z :=
  Z.of_nat (length (List.filter P l)).

(** Row [stage] of the table: among the ordered deals of [stage + 1]
    cards at which the predictor was correct every time, the number of
    those that leave [lowerCount] cards below the last card dealt, for
    [lowerCount = 0 .. size - stage - 1]. *)
Definition path_count_row (size numberLower stage : nat) : list Z :=
  let deck := labeled_deck size in
  let paths := List.filter (all_correct (Initial numberLower) deck)
                           (deals (S stage) deck) in
  let lower_counts := map (final_lower_count (Initial numberLower) deck) paths in
  map (fun lowerCount => count (Nat.eqb lowerCount) lower_counts)
      (seq 0 (size - stage)).

(** The whole triangular table: stages [0 .. size - 2]. *)
Definition path_count_table (size numberLower : nat) : list (list Z) :=
  map (path_count_row size numberLower) (seq 0 (size - 1)).

(** For [n = 0 .. size - 2]: among all orderings of the deck, those on
    which the predictor is correct at each of the deals [0 .. n], over
    the number of orderings, in lowest terms. *)
Definition survival_fractions (size numberLower : nat) : list (Z * Z) :=
  let deck := labeled_deck size in
  let orderings := deals size deck in
  let streaks := map (streak (Initial numberLower) deck) orderings in
  map (fun n => reduced (count (Nat.ltb n) streaks)
                        (Z.of_nat (length orderings)))
      (seq 0 (size - 1)).

End BruteForce.

(* ================================================================== *)
(** ** What the tables count, and how two runs compare *)

(** The triangular table of zeros: rows [0 .. size - 2], row [i] with
    [size - i] cells. *)
Definition zero_table (size : Z) : list (list Z) :=
  (fun i => replicate (Z.to_nat (size - i)) 0) <$> seqZ 0 (size - 1).

(** With [before] cards left, [i] of them below the last card dealt (and
    [before - i] above), the predictor calls "higher" iff
    [before - i >= i].  A higher card leaves at least [i] cards below it, a
    lower card fewer than [i]: [leads_to before i t] says that the deal of
    a card on the predicted side can leave [t] cards below it. *)
Definition leads_to (before i t : Z) : bool :=
  if before - i >=? i then i <=? t else t <? i.

(** The entry of [row] at [i]; zero outside the row. *)
Definition entry (row : list Z) (i : Z) : Z := default 0 (index row i).

(** The paths of the row [previous] that a correct prediction can take
    to lower-count [t], with [before] cards left. *)
Definition predicted_paths (before t : Z) (previous : list Z) : Z :=
  sum_range (fun i => if leads_to before i t then entry previous i else 0)
            0 (before + 1).

(** The paths of the row [previous] followed by one of the cards that
    make the prediction fail, with [before] cards left. *)
Definition failing_paths (before : Z) (previous : list Z) : Z :=
  sum_range (fun i => entry previous i * Z.min i (before - i)) 0 (before + 1).

(** The number of ways to deal [n] cards in order from a deck of [size]:
    [size * (size - 1) * ... * (size - n + 1)]. *)
Fixpoint arrangements (size : Z) (n : nat) : Z :=
  match n with
  | O => 1
  | S n' => arrangements size n' * (size - Z.of_nat n')
  end.



(** What [mpz_get_ui] makes of an integer: the low 64 bits of its
    absolute value. *)
Definition exported (z : Z) : Z := uwrap ulong_range (Z.abs z).

(** The machine's computation is the checked one wherever the checked
    one does not stop on an overflow. *)
Definition agrees {A} (checked machine : M A) : Prop :=
  forall h, fault_of (checked h) <> Some Overflow -> machine h = checked h.

(** Two runs end alike: with the same value, or on the same fault. *)
Definition same_answer {A} (o1 o2 : outcome A) : Prop :=
  match o1, o2 with
  | Done a1 _, Done a2 _ => a1 = a2
  | Fault f1 _, Fault f2 _ => f1 = f2
  | _, _ => False
  end.

(** From heaps related by [R] the computation ends alike, in heaps
    related by [R']. *)
Definition related {A} (R R' : heap -> heap -> Prop) (c : M A) : Prop :=
  forall h1 h2, R h1 h2 ->
    match c h1, c h2 with
    | Done a1 h1', Done a2 h2' => a1 = a2 /\ R' h1' h2'
    | Fault f1 _, Fault f2 _ => f1 = f2
    | _, _ => False
    end.

(** What two heaps have in common: the tables named by [m], [p] and [q],
    room for [len] results, and the first [nn] numerators and [nd]
    denominators; with [e], the result buffers of the second heap hold
    [len] cells and no more. *)
Definition alike (len : Z) (e m p q : bool) (nn nd : nat) (h1 h2 : heap)
  : Prop :=
  (if e then length (numeratorsResult h2) = Z.to_nat len /\
             length (denominatorsResult h2) = Z.to_nat len
   else True) /\
  (if m then matrix h1 = matrix h2 else True) /\
  (if p then probabilities h1 = probabilities h2 else True) /\
  (if q then permutations h1 = permutations h2 else True) /\
  (len <= Z.of_nat (length (numeratorsResult h1)) /\
   len <= Z.of_nat (length (numeratorsResult h2))) /\
  (len <= Z.of_nat (length (denominatorsResult h1)) /\
   len <= Z.of_nat (length (denominatorsResult h2))) /\
  take nn (numeratorsResult h1) = take nn (numeratorsResult h2) /\
  take nd (denominatorsResult h1) = take nd (denominatorsResult h2).

(** The result buffers of [h] hold at least [len] cells each. *)
Definition roomy (len : Z) (h : heap) : Prop :=
  len <= Z.of_nat (length (numeratorsResult h)) /\
  len <= Z.of_nat (length (denominatorsResult h)).

(** For each row [n] of the table, its total over the number of ways
    to deal [n + 1] cards. *)
Definition survival_ratios (size : Z) (table : list (list Z)) : list Q :=
  imap (fun n row => sum_list row # Z.to_pos (arrangements size (S n))) table.

(* ================================================================== *)
(** ** Deciding statements about runs *)

#[global] Instance mpq_eq_dec : EqDecision mpq.
Proof. solve_decision. Defined.

#[global] Instance array_eq_dec : EqDecision array.
Proof. solve_decision. Defined.

#[global] Instance fault_eq_dec : EqDecision fault.
Proof. solve_decision. Defined.

#[global] Instance heap_eq_dec : EqDecision heap.
Proof. solve_decision. Defined.

#[global] Instance outcome_eq_dec {A} `{EqDecision A} : EqDecision (outcome A).
Proof. solve_decision. Defined.

#[global] Instance returns_dec {A} (P : A -> Prop) `{forall a, Decision (P a)}
  (o : outcome A) : Decision (returns P o).
Proof. destruct o; simpl; apply _. Defined.

(* ================================================================== *)
(** * Properties *)

(** ** Tactics *)

(** Case analysis on the integer comparisons of the goal. *)
Ltac compare_cases :=
  repeat match goal with
    | |- context [?a >=? ?b] =>
        let E := fresh "E" in
        rewrite (Z.geb_leb a b);
        destruct (b <=? a) eqn:E;
        [apply Z.leb_le in E | apply Z.leb_gt in E]
    | |- context [?a >? ?b] =>
        let E := fresh "E" in
        rewrite (Z.gtb_ltb a b);
        destruct (b <? a) eqn:E;
        [apply Z.ltb_lt in E | apply Z.ltb_ge in E]
    | |- context [?a =? ?b] =>
        let E := fresh "E" in
        destruct (a =? b) eqn:E;
        [apply Z.eqb_eq in E | apply Z.eqb_neq in E]
    | |- context [?a <=? ?b] =>
        let E := fresh "E" in
        destruct (a <=? b) eqn:E;
        [apply Z.leb_le in E | apply Z.leb_gt in E]
    | |- context [?a <? ?b] =>
        let E := fresh "E" in
        destruct (a <? b) eqn:E;
        [apply Z.ltb_lt in E | apply Z.ltb_ge in E]
    end;
  simpl; try reflexivity; try lia.

Ltac int_range := unfold INT_MIN, INT_MAX, int_half in *; lia.

(** ** Machine integers *)

Lemma wrap_fits half x : fits half x = true -> wrap half x = x.
Proof. intros H. unfold wrap. rewrite H. reflexivity. Qed.

Lemma wrap_mod half x :
  0 < half -> wrap half x = (x + half) mod (2 * half) - half.
Proof.
  intros Hh. unfold wrap. destruct (fits half x) eqn:E; [|reflexivity].
  unfold fits in E. apply andb_prop in E as [H1 H2].
  apply Z.leb_le in H1. apply Z.ltb_lt in H2.
  rewrite Z.mod_small; lia.
Qed.

Lemma fits_wrap half x : 0 < half -> fits half (wrap half x) = true.
Proof.
  intros Hh. rewrite wrap_mod by assumption. unfold fits.
  pose proof (Z.mod_pos_bound (x + half) (2 * half) ltac:(lia)).
  apply andb_true_intro. split; [apply Z.leb_le | apply Z.ltb_lt]; lia.
Qed.

Lemma wrap_add_l half a b :
  0 < half -> wrap half (wrap half a + b) = wrap half (a + b).
Proof.
  intros Hh. rewrite !wrap_mod by assumption. f_equal.
  replace ((a + half) mod (2 * half) - half + b + half)
    with ((a + half) mod (2 * half) + b) by lia.
  rewrite Zplus_mod_idemp_l. f_equal. lia.
Qed.

Lemma fits_int x : INT_MIN <= x <= INT_MAX -> fits int_half x = true.
Proof.
  unfold INT_MIN, INT_MAX, fits. intros H.
  apply andb_true_intro. split; [apply Z.leb_le | apply Z.ltb_lt]; lia.
Qed.

Lemma int_exact x h : INT_MIN <= x <= INT_MAX -> int_ Wrap x h = Done x h.
Proof.
  intros H. unfold int_, ret. rewrite wrap_fits; [reflexivity|].
  apply fits_int, H.
Qed.

(** Running straight-line integer code whose results fit. *)
Ltac run_int :=
  unfold bind, ret;
  repeat (rewrite int_exact by int_range; cbv beta iota).

(** ** Computations *)

Lemma bind_done {A B} (c : M A) (k : A -> M B) h a h' :
  c h = Done a h' -> bind c k h = k a h'.
Proof. unfold bind. intros ->. reflexivity. Qed.

Lemma bind_fault {A B} (c : M A) (k : A -> M B) h f h' :
  c h = Fault f h' -> bind c k h = Fault f h'.
Proof. unfold bind. intros ->. reflexivity. Qed.

(** The invariant rule for a loop whose body never faults. *)
Lemma iterate_rule {St} (I : Z -> St -> heap -> Prop) (body : Z -> St -> M St) :
  forall (n : nat) lo s h,
    I lo s h ->
    (forall i s h, lo <= i < lo + Z.of_nat n -> I i s h ->
       exists s' h', body i s h = Done s' h' /\ I (i + 1) s' h') ->
    exists s' h', iterate n lo body s h = Done s' h' /\ I (lo + Z.of_nat n) s' h'.
Proof.
  induction n as [|n IH]; intros lo s h H0 Hstep.
  - exists s, h. simpl. rewrite Z.add_0_r. split; [reflexivity|assumption].
  - destruct (Hstep lo s h ltac:(lia) H0) as (s1 & h1 & Hb & H1).
    destruct (IH (lo + 1) s1 h1 H1) as (s2 & h2 & Hi & H2).
    { intros i s' h' Hi. apply Hstep. lia. }
    exists s2, h2. split.
    + simpl. rewrite (bind_done _ _ _ _ _ Hb). exact Hi.
    + replace (lo + Z.of_nat (S n)) with (lo + 1 + Z.of_nat n) by lia.
      exact H2.
Qed.

Lemma for_acc_rule {St} (I : Z -> St -> heap -> Prop) (body : Z -> St -> M St)
    lo hi s h :
  lo <= hi ->
  I lo s h ->
  (forall i s h, lo <= i < hi -> I i s h ->
     exists s' h', body i s h = Done s' h' /\ I (i + 1) s' h') ->
  exists s' h', for_acc lo hi body s h = Done s' h' /\ I hi s' h'.
Proof.
  intros Hle H0 Hstep. unfold for_acc.
  destruct (iterate_rule I body (Z.to_nat (hi - lo)) lo s h H0)
    as (s' & h' & Hi & H').
  { intros i s1 h1 Hi. apply Hstep. lia. }
  exists s', h'. split; [exact Hi|].
  replace hi with (lo + Z.of_nat (Z.to_nat (hi - lo))) by lia. exact H'.
Qed.

Lemma for_rule (I : Z -> heap -> Prop) (body : Z -> M unit) lo hi h :
  lo <= hi ->
  I lo h ->
  (forall i h, lo <= i < hi -> I i h ->
     exists h', body i h = Done tt h' /\ I (i + 1) h') ->
  exists h', for_ lo hi body h = Done tt h' /\ I hi h'.
Proof.
  intros Hle H0 Hstep. unfold for_.
  destruct (for_acc_rule (fun i (_ : unit) h => I i h)
              (fun i _ => body i) lo hi tt h Hle H0) as ([] & h' & Hf & H').
  { intros i [] h1 Hi HI. destruct (Hstep i h1 Hi HI) as (h2 & Hb & H2).
    exists tt, h2. split; assumption. }
  exists h'. split; assumption.
Qed.

(** A loop stops at the first iteration whose body faults. *)
Lemma for_fault (I : Z -> heap -> Prop) (body : Z -> M unit) lo hi stop f h :
  lo <= stop < hi ->
  I lo h ->
  (forall i h, lo <= i < stop -> I i h ->
     exists h', body i h = Done tt h' /\ I (i + 1) h') ->
  (forall h, I stop h -> body stop h = Fault f h) ->
  exists h', for_ lo hi body h = Fault f h' /\ I stop h'.
Proof.
  intros Hr H0 Hstep Hstop. unfold for_, for_acc.
  replace (Z.to_nat (hi - lo))
    with (Z.to_nat (stop - lo) + S (Z.to_nat (hi - stop - 1)))%nat by lia.
  assert (Hgo : forall (n : nat) l (u : unit) h1,
             l + Z.of_nat n = stop -> lo <= l -> I l h1 ->
             forall m, exists h',
               iterate (n + S m) l (fun i _ => body i) u h1 = Fault f h'
               /\ I stop h').
  { induction n as [|n IH]; intros l u h1 Hl Hlo HI m.
    - assert (l = stop) as -> by lia.
      exists h1. split; [|exact HI]. simpl.
      apply bind_fault, Hstop, HI.
    - destruct (Hstep l h1 ltac:(lia) HI) as (h2 & Hb & H2).
      destruct (IH (l + 1) tt h2 ltac:(lia) ltac:(lia) H2 m) as (h3 & Hi & H3).
      exists h3. split; [|exact H3].
      simpl. rewrite (bind_done _ _ _ _ _ Hb). exact Hi. }
  apply (Hgo _ lo tt h); [lia|lia|exact H0].
Qed.

(** ** Finite ranges of inputs *)

Lemma elem_of_inputs lo hi size numberLower :
  lo <= size <= hi -> 0 <= numberLower <= size ->
  (size, numberLower) ∈ inputs lo hi.
Proof.
  intros Hs Hn. unfold inputs.
  apply list_elem_of_bind. exists size. split.
  - apply list_elem_of_bind. exists numberLower. split.
    + apply list_elem_of_singleton. reflexivity.
    + apply elem_of_seqZ. lia.
  - apply elem_of_seqZ. lia.
Qed.

(** A decidable property of a value computed from the input, checked on
    every input of the range, holds on the range.  The value is computed
    once per input. *)
Lemma on_inputs {X} lo hi (f : Z -> Z -> X) (P : X -> Prop)
    `{forall x, Decision (P x)} :
  forallb (fun p => let x := f (fst p) (snd p) in bool_decide (P x))
          (inputs lo hi) = true ->
  forall size numberLower,
    lo <= size <= hi -> 0 <= numberLower <= size -> P (f size numberLower).
Proof.
  intros Hall size numberLower Hs Hn.
  assert (Hin : In (size, numberLower) (inputs lo hi))
    by (apply list_elem_of_In, elem_of_inputs; assumption).
  pose proof (proj1 (List.forallb_forall _ _) Hall _ Hin) as Hp.
  cbv zeta in Hp. simpl in Hp.
  apply bool_decide_eq_true in Hp. exact Hp.
Qed.

(** A run refuted by evaluation. *)
Lemma refute {A} (P : A -> Prop) `{forall a, Decision (P a)} (o : outcome A) :
  @bool_decide (returns P o) (returns_dec P o) = false -> ~ returns P o.
Proof. apply bool_decide_eq_false_1. Qed.

(** ** Arrays *)

Lemma index_lookup {A} (l : list A) i :
  0 <= i -> index l i = l !! Z.to_nat i.
Proof. intros H. unfold index. apply Z.leb_le in H. rewrite H. reflexivity. Qed.

Lemma index_negative {A} (l : list A) i : i < 0 -> index l i = None.
Proof.
  intros H. unfold index. destruct (0 <=? i) eqn:E; [|reflexivity].
  apply Z.leb_le in E. lia.
Qed.

Lemma update_in_range {A} (l : list A) i v :
  0 <= i < Z.of_nat (length l) ->
  update l i v = Some (<[Z.to_nat i := v]> l).
Proof.
  intros [H1 H2]. unfold update.
  apply Z.leb_le in H1. apply Z.ltb_lt in H2. rewrite H1, H2. reflexivity.
Qed.

Lemma update_out_of_range {A} (l : list A) i v :
  i < 0 \/ Z.of_nat (length l) <= i -> update l i v = None.
Proof.
  intros H. unfold update.
  destruct (0 <=? i) eqn:E1; [|reflexivity].
  destruct (i <? Z.of_nat (length l)) eqn:E2; [|reflexivity].
  apply Z.leb_le in E1. apply Z.ltb_lt in E2. lia.
Qed.

Lemma index_insert {A} (l : list A) i j v :
  0 <= i < Z.of_nat (length l) -> 0 <= j ->
  index (<[Z.to_nat i := v]> l) j = if i =? j then Some v else index l j.
Proof.
  intros Hi Hj. rewrite !index_lookup by assumption.
  destruct (i =? j) eqn:E.
  - apply Z.eqb_eq in E. subst j. apply list_lookup_insert_eq. lia.
  - apply Z.eqb_neq in E. apply list_lookup_insert_ne. lia.
Qed.

(** ** The path-count table as a function *)

Lemma table_is_ext size f g m :
  (forall s t, 0 <= s < size - 1 -> 0 <= t < size - s -> f s t = g s t) ->
  table_is size f m -> table_is size g m.
Proof.
  intros Hfg [Hlen Hrows]. split; [exact Hlen|].
  intros s Hs. destruct (Hrows s Hs) as (row & Hrow & Hl & Hcells).
  exists row. repeat split; try assumption.
  intros t Ht. rewrite <- Hfg by assumption. apply Hcells, Ht.
Qed.

Lemma load_matrix_table size f h s t :
  table_is size f (matrix h) ->
  0 <= s < size - 1 -> 0 <= t < size - s ->
  load_matrix s t h = Done (f s t) h.
Proof.
  intros [_ Hrows] Hs Ht.
  destruct (Hrows s Hs) as (row & Hrow & _ & Hcells).
  unfold load_matrix. rewrite Hrow, (Hcells t Ht). reflexivity.
Qed.

Lemma store_matrix_table size f h s t v :
  table_is size f (matrix h) ->
  0 <= s < size - 1 -> 0 <= t < size - s ->
  exists m', store_matrix s t v h = Done tt (set_matrix m' h) /\
             table_is size (assign f s t v) m'.
Proof.
  intros [Hlen Hrows] Hs Ht.
  destruct (Hrows s Hs) as (row & Hrow & Hl & Hcells).
  exists (<[Z.to_nat s := <[Z.to_nat t := v]> row]> (matrix h)). split.
  - unfold store_matrix. rewrite Hrow.
    rewrite update_in_range by lia. reflexivity.
  - split; [rewrite length_insert; exact Hlen|].
    intros s' Hs'. rewrite index_insert by lia.
    unfold assign. destruct (s =? s') eqn:E.
    + apply Z.eqb_eq in E. subst s'.
      exists (<[Z.to_nat t := v]> row). split; [reflexivity|].
      split; [rewrite length_insert; exact Hl|].
      intros t' Ht'. rewrite index_insert by lia.
      rewrite Z.eqb_refl. simpl.
      rewrite (Z.eqb_sym t' t).
      destruct (t =? t'); [reflexivity|]. apply Hcells, Ht'.
    + destruct (Hrows s' Hs') as (row' & Hrow' & Hl' & Hcells').
      exists row'. repeat split; try assumption.
      intros t' Ht'. rewrite (Z.eqb_sym s' s), E. simpl. apply Hcells', Ht'.
Qed.

Lemma store_matrix_outside size f h s t v :
  table_is size f (matrix h) ->
  0 <= s < size - 1 -> t < 0 \/ size - s <= t ->
  store_matrix s t v h = Fault (OutOfBounds (A_row s) t) h.
Proof.
  intros [_ Hrows] Hs Ht.
  destruct (Hrows s Hs) as (row & Hrow & Hl & _).
  unfold store_matrix. rewrite Hrow.
  rewrite update_out_of_range by lia. reflexivity.
Qed.

(** [createMatrix] leaves a zeroed triangular table and touches nothing
    else. *)
Lemma createMatrix_table size h :
  2 <= size <= INT_MAX ->
  exists m, createMatrix Wrap size h = Done tt (set_matrix m h) /\
            table_is size (fun _ _ => 0) m.
Proof.
  intros Hsize. unfold INT_MAX in Hsize. unfold createMatrix.
  rewrite (bind_done _ _ _ _ _ (int_exact (size - 1) h ltac:(unfold INT_MIN, INT_MAX; lia))).
  unfold get at 1. unfold bind at 1. unfold put at 1. unfold bind at 1.
  set (h0 := set_matrix (calloc (size - 1) []) h).
  destruct (for_rule
    (fun i h1 => h1 = set_matrix (matrix h1) h /\
                 Z.of_nat (length (matrix h1)) = size - 1 /\
                 forall s, 0 <= s < i ->
                   index (matrix h1) s = Some (calloc (size - s) 0))
    (fun i => len <- int_ Wrap (size - i) ;; store_row i (calloc len 0))
    0 (size - 1) h0) as (h' & Hrun & Hframe & Hlen & Hrows).
  - lia.
  - repeat split.
    + simpl. unfold calloc. rewrite length_replicate. lia.
    + intros s Hs. lia.
  - intros i h1 Hi (Hframe & Hlen & Hrows).
    rewrite (bind_done _ _ _ _ _
               (int_exact (size - i) h1 ltac:(unfold INT_MIN, INT_MAX; lia))).
    unfold store_row. rewrite update_in_range by lia.
    eexists. split; [reflexivity|]. simpl. repeat split.
    + rewrite Hframe at 2. reflexivity.
    + rewrite length_insert. exact Hlen.
    + intros s Hs. rewrite index_insert by lia.
      destruct (i =? s) eqn:E.
      * apply Z.eqb_eq in E. subst s. reflexivity.
      * apply Z.eqb_neq in E. apply Hrows. lia.
  - exists (matrix h'). split.
    + rewrite Hrun. f_equal. exact Hframe.
    + split; [exact Hlen|]. intros s Hs.
      exists (calloc (size - s) 0). split; [apply Hrows, Hs|].
      unfold calloc. split; [rewrite length_replicate; lia|].
      intros t Ht. rewrite index_lookup by lia.
      apply lookup_replicate_2. lia.
Qed.

Lemma set_matrix_frame m m' h1 h :
  h1 = set_matrix m h -> set_matrix m' h1 = set_matrix m' h.
Proof. intros ->. reflexivity. Qed.

(** ** Stage 0 *)

Lemma first_stage_loop size numberLower h k l :
  2 <= size <= INT_MAX ->
  0 <= k <= l -> l <= size ->
  (forall t, 0 <= t < size ->
     (if (k <=? t) && (t <? l) then 1 else 0)
     = first_row_entry size numberLower t) ->
  table_is size (fun _ _ => 0) (matrix h) ->
  exists m, for_ k l (fun i => store_matrix 0 i 1) h = Done tt (set_matrix m h) /\
            table_is size (first_stage size numberLower) m.
Proof.
  intros Hsize Hk Hl Hrow Htable.
  destruct (for_rule
    (fun i h1 => h1 = set_matrix (matrix h1) h /\
                 table_is size
                   (fun s t => if (s =? 0) && ((k <=? t) && (t <? i))
                               then 1 else 0) (matrix h1))
    (fun i => store_matrix 0 i 1) k l h) as (h' & Hrun & Hframe & Htable').
  - lia.
  - split; [destruct h; reflexivity|].
    revert Htable. apply table_is_ext. intros s t Hs Ht. compare_cases.
  - intros i h1 Hi (Hframe & Ht1).
    destruct (store_matrix_table _ _ h1 0 i 1 Ht1) as (m' & Hst & Ht2);
      [lia|lia|].
    eexists. split; [exact Hst|]. simpl. split.
    + eapply set_matrix_frame, Hframe.
    + revert Ht2. apply table_is_ext. intros s t Hs Ht.
      unfold assign. compare_cases.
  - exists (matrix h'). split; [rewrite Hrun; f_equal; exact Hframe|].
    revert Htable'. apply table_is_ext. intros s t Hs Ht.
    unfold first_stage. destruct (s =? 0) eqn:E; [|reflexivity].
    apply Z.eqb_eq in E. subst s. simpl. apply Hrow. lia.
Qed.

Lemma initialiseFirstStage_table size numberLower h :
  2 <= size <= INT_MAX -> 0 <= numberLower <= size ->
  table_is size (fun _ _ => 0) (matrix h) ->
  exists m, initialiseFirstStage Wrap size numberLower h
              = Done tt (set_matrix m h) /\
            table_is size (first_stage size numberLower) m.
Proof.
  intros Hsize Hnl Htable. unfold initialiseFirstStage.
  rewrite (bind_done _ _ _ _ _
             (int_exact (size - numberLower) h ltac:(int_range))).
  apply first_stage_loop; try assumption.
  - compare_cases.
  - compare_cases.
  - intros t Ht. unfold first_row_entry. compare_cases.
Qed.

Lemma table_row size f m s :
  table_is size f m -> 0 <= s < size - 1 ->
  index m s = Some (f s <$> seqZ 0 (size - s)).
Proof.
  intros [_ Hrows] Hs.
  destruct (Hrows s Hs) as (row & Hrow & Hl & Hcells).
  rewrite Hrow. f_equal.
  apply list_eq. intros i.
  destruct (decide (Z.of_nat i < size - s)) as [Hi|Hi].
  - specialize (Hcells (Z.of_nat i) ltac:(lia)).
    rewrite index_lookup, Nat2Z.id in Hcells by lia. rewrite Hcells.
    rewrite list_lookup_fmap.
    rewrite (lookup_seqZ_lt 0 (size - s) i) by lia. simpl.
    f_equal.
  - rewrite !lookup_ge_None_2; [reflexivity| |].
    + rewrite length_fmap, length_seqZ. lia.
    + lia.
Qed.

(** C4.  After [createMatrix] and [initialiseFirstStage] on a valid input,
    row 0 of the table has [size] entries; with
    [numberHigher = size - numberLower >= numberLower] it holds 1 exactly
    at the indices [numberLower <= i <= size - 1], otherwise exactly at
    [0 <= i <= numberLower - 1], and 0 at every other index. *)
Theorem first_row_after_initialisation (size numberLower : Z) (h : heap) :
  2 <= size <= INT_MAX -> 0 <= numberLower <= size ->
  exists h' row,
    (createMatrix Wrap size ;; initialiseFirstStage Wrap size numberLower) h
      = Done tt h' /\
    index (matrix h') 0 = Some row /\
    Z.of_nat (length row) = size /\
    forall i, 0 <= i < size ->
      index row i = Some (first_row_entry size numberLower i).
Proof.
  intros Hsize Hnl.
  destruct (createMatrix_table size h Hsize) as (m0 & Hcreate & Hzero).
  destruct (initialiseFirstStage_table size numberLower (set_matrix m0 h)
              Hsize Hnl Hzero) as (m1 & Hinit & Hfirst).
  destruct Hfirst as [Hlen Hrows].
  destruct (Hrows 0 ltac:(lia)) as (row & Hrow & Hl & Hcells).
  exists (set_matrix m1 h), row. repeat split.
  - rewrite (bind_done _ _ _ _ _ Hcreate). exact Hinit.
  - exact Hrow.
  - lia.
  - intros i Hi. rewrite Hcells by lia. reflexivity.
Qed.

Lemma first_row_after_initialisation_witness :
  exists h' row,
    (createMatrix Wrap 3 ;; initialiseFirstStage Wrap 3 1) empty_heap
      = Done tt h' /\
    index (matrix h') 0 = Some row /\
    Z.of_nat (length row) = 3 /\
    forall i, 0 <= i < 3 -> index row i = Some (first_row_entry 3 1 i).
Proof.
  apply (first_row_after_initialisation 3 1 empty_heap);
    unfold INT_MAX, int_half; lia.
Defined.

(** ** No validation *)

Lemma set_probabilities_frame p p' h1 h :
  h1 = set_probabilities p h -> set_probabilities p' h1 = set_probabilities p' h.
Proof. intros ->. reflexivity. Qed.

(** [createProbabilities] only touches the probability vector. *)
Lemma createProbabilities_frame size h :
  2 <= size <= INT_MAX ->
  exists p, createProbabilities Wrap size h = Done tt (set_probabilities p h).
Proof.
  intros Hsize. unfold createProbabilities, getLengthOfProbabilities.
  rewrite (bind_done _ _ _ _ _ (int_exact (size - 1) h ltac:(int_range))).
  unfold get at 1. unfold bind at 1. unfold put at 1. unfold bind at 1.
  set (h0 := set_probabilities (calloc (size - 1) (Mpq 0 0)) h).
  destruct (for_rule
    (fun i h1 => h1 = set_probabilities (probabilities h1) h /\
                 Z.of_nat (length (probabilities h1)) = size - 1)
    (fun i => store_probabilities i mpq_zero) 0 (size - 1) h0)
    as (h' & Hrun & Hframe & _).
  - lia.
  - split; [reflexivity|].
    simpl. unfold calloc. rewrite length_replicate. lia.
  - intros i h1 Hi (Hframe & Hlen).
    unfold store_probabilities. rewrite update_in_range by lia.
    eexists. split; [reflexivity|]. simpl. split.
    + eapply set_probabilities_frame, Hframe.
    + rewrite length_insert. exact Hlen.
  - exists (probabilities h'). rewrite Hrun. f_equal. exact Hframe.
Qed.

Lemma createPermutations_frame size h :
  2 <= size <= INT_MAX ->
  createPermutations Wrap size h
    = Done tt (set_permutations (calloc (size - 2) 0) h).
Proof.
  intros Hsize. unfold createPermutations, getLengthOfPermutations.
  rewrite (bind_done _ _ _ _ _ (int_exact (size - 2) h ltac:(int_range))).
  reflexivity.
Qed.

(** Row 0 of the table, as a list. *)
Lemma constant_row (row : list Z) n v :
  Z.of_nat (length row) = n ->
  (forall t, 0 <= t < n -> index row t = Some v) ->
  row = replicate (Z.to_nat n) v.
Proof.
  intros Hl Hcells. apply list_eq. intros i.
  destruct (decide (Z.of_nat i < n)) as [Hi|Hi].
  - specialize (Hcells (Z.of_nat i) ltac:(lia)).
    rewrite index_lookup, Nat2Z.id in Hcells by lia. rewrite Hcells.
    symmetry. apply lookup_replicate_2. lia.
  - rewrite !lookup_ge_None_2; [reflexivity| |].
    + rewrite length_replicate. lia.
    + lia.
Qed.

(** On a [numberLower] outside [0, size], [initialiseFirstStage] runs off
    row 0 of the zeroed table: at once below it when [numberLower < 0],
    and past its end, all of it set to 1, when [numberLower > size]. *)
Lemma initialiseFirstStage_runs_off_row_0 size numberLower h :
  2 <= size <= INT_MAX ->
  size < numberLower <= INT_MAX \/ size - INT_MAX <= numberLower < 0 ->
  table_is size (fun _ _ => 0) (matrix h) ->
  exists m,
    initialiseFirstStage Wrap size numberLower h
      = Fault (OutOfBounds (A_row 0) (if numberLower <? 0 then numberLower else size))
              (set_matrix m h) /\
    Z.of_nat (length m) = size - 1 /\
    index m 0 = Some (replicate (Z.to_nat size)
                                (if numberLower <? 0 then 0 else 1)).
Proof.
  intros Hsize Hnl Htable. unfold initialiseFirstStage.
  rewrite (bind_done _ _ _ _ _
             (int_exact (size - numberLower) h ltac:(int_range))).
  destruct Hnl as [Hnl|Hnl].
  - (* numberLower > size: the predictor calls "lower" *)
    assert (E1 : (size - numberLower >=? numberLower) = false)
      by (rewrite Z.geb_leb; apply Z.leb_gt; lia).
    assert (E2 : (numberLower <? 0) = false) by (apply Z.ltb_ge; lia).
    rewrite E1, E2.
    destruct (for_fault
      (fun i h1 => h1 = set_matrix (matrix h1) h /\
                   table_is size
                     (fun s t => if (s =? 0) && (t <? i) then 1 else 0)
                     (matrix h1))
      (fun i => store_matrix 0 i 1) 0 numberLower size
      (OutOfBounds (A_row 0) size) h) as (h' & Hrun & Hframe & Htable').
    + lia.
    + split; [destruct h; reflexivity|].
      revert Htable. apply table_is_ext. intros s t Hs Ht. compare_cases.
    + intros i h1 Hi (Hframe & Ht1).
      destruct (store_matrix_table _ _ h1 0 i 1 Ht1) as (m' & Hst & Ht2);
        [lia|lia|].
      eexists. split; [exact Hst|]. simpl. split.
      * eapply set_matrix_frame, Hframe.
      * revert Ht2. apply table_is_ext. intros s t Hs Ht.
        unfold assign. compare_cases.
    + intros h1 (_ & Ht1).
      apply (store_matrix_outside _ _ h1 0 size 1 Ht1); lia.
    + exists (matrix h'). split; [rewrite Hrun; f_equal; exact Hframe|].
      destruct Htable' as [Hlen Hrows]. split; [exact Hlen|].
      destruct (Hrows 0 ltac:(lia)) as (row & Hrow & Hl & Hcells).
      rewrite Hrow. f_equal. apply constant_row; [lia|].
      intros t Ht. rewrite Hcells by lia.
      assert (E3 : (t <? size) = true) by (apply Z.ltb_lt; lia).
      rewrite E3. reflexivity.
  - (* numberLower < 0: the predictor calls "higher" *)
    assert (E1 : (size - numberLower >=? numberLower) = true)
      by (rewrite Z.geb_leb; apply Z.leb_le; lia).
    assert (E2 : (numberLower <? 0) = true) by (apply Z.ltb_lt; lia).
    rewrite E1, E2.
    destruct (for_fault
      (fun i h1 => h1 = h)
      (fun i => store_matrix 0 i 1) numberLower size numberLower
      (OutOfBounds (A_row 0) numberLower) h) as (h' & Hrun & ->).
    + lia.
    + reflexivity.
    + intros i h1 Hi. lia.
    + intros h1 ->.
      apply (store_matrix_outside _ _ h 0 numberLower 1 Htable); lia.
    + exists (matrix h). split; [rewrite Hrun; destruct h; reflexivity|].
      destruct Htable as [Hlen Hrows]. split; [exact Hlen|].
      destruct (Hrows 0 ltac:(lia)) as (row & Hrow & Hl & Hcells).
      rewrite Hrow. f_equal. apply constant_row; [lia|].
      intros t Ht. apply Hcells. lia.
Qed.

(** C10 as stated fails: nothing validates [numberLower].  For
    [size = 3], [numberLower = 4] the run builds the table, sets all of
    row 0 and only then stops, on the write to [matrix[0][3]]. *)
Lemma numberLower_4_of_3_is_not_rejected_first :
  calculateProbabilities Wrap 3 4 empty_heap
    = Fault (OutOfBounds (A_row 0) 3)
            (Heap [[1; 1; 1]; [0; 0]] [mpq_zero; mpq_zero] [0] [] []) /\
  ~ rejected_before_tables (calculateProbabilities Wrap 3 4 empty_heap).
Proof.
  split.
  - vm_compute. reflexivity.
  - intros [_ Hnone]. vm_compute in Hnone. discriminate Hnone.
Qed.

(** C10, amended.  [calculateProbabilities] does not validate its
    arguments.  For [size >= 2] and a [numberLower] outside [0, size]
    (both of type [int], with [size - numberLower] representable) it
    allocates the path-count table of [size - 1] rows and then stops
    inside [initialiseFirstStage] on a write outside row 0: at index
    [numberLower], row 0 still zero, when [numberLower < 0]; at index
    [size], row 0 all ones, when [numberLower > size]. *)
Theorem invalid_numberLower_faults_inside_table_construction
    (size numberLower : Z) (h : heap) :
  2 <= size <= INT_MAX ->
  size < numberLower <= INT_MAX \/ size - INT_MAX <= numberLower < 0 ->
  exists h',
    calculateProbabilities Wrap size numberLower h
      = Fault (OutOfBounds (A_row 0)
                 (if numberLower <? 0 then numberLower else size)) h' /\
    Z.of_nat (length (matrix h')) = size - 1 /\
    index (matrix h') 0
      = Some (replicate (Z.to_nat size) (if numberLower <? 0 then 0 else 1)).
Proof.
  intros Hsize Hnl.
  destruct (createMatrix_table size h Hsize) as (m0 & Hmatrix & Hzero).
  destruct (createProbabilities_frame size (set_matrix m0 h) Hsize)
    as (p & Hprobabilities).
  pose proof (createPermutations_frame size
                (set_probabilities p (set_matrix m0 h)) Hsize) as Hpermutations.
  set (h3 := set_permutations (calloc (size - 2) 0)
               (set_probabilities p (set_matrix m0 h))) in *.
  destruct (initialiseFirstStage_runs_off_row_0 size numberLower h3
              Hsize Hnl Hzero) as (m & Hfirst & Hlen & Hrow).
  exists (set_matrix m h3). split; [|split; assumption].
  unfold calculateProbabilities, calculateMatrix.
  rewrite (bind_done _ _ _ _ _ Hmatrix).
  rewrite (bind_done _ _ _ _ _ Hprobabilities).
  rewrite (bind_done _ _ _ _ _ Hpermutations).
  apply bind_fault, bind_fault. exact Hfirst.
Qed.

Lemma invalid_numberLower_faults_inside_table_construction_witness :
  exists h',
    calculateProbabilities Wrap 3 4 empty_heap
      = Fault (OutOfBounds (A_row 0) (if 4 <? 0 then 4 else 3)) h' /\
    Z.of_nat (length (matrix h')) = 3 - 1 /\
    index (matrix h') 0
      = Some (replicate (Z.to_nat 3) (if 4 <? 0 then 0 else 1)).
Proof.
  apply (invalid_numberLower_faults_inside_table_construction 3 4 empty_heap);
    unfold INT_MAX, int_half; lia.
Defined.

(** Where [size - numberLower] wraps around, an invalid [numberLower] is
    not even noticed: the loop of [initialiseFirstStage] has no
    iteration and the query returns zeros. *)
Lemma wrapped_numberLower_goes_unnoticed :
  result (run 3 (-2147483646)) = Some [(0, 1); (0, 1)].
Proof. vm_compute. reflexivity. Qed.

(** A round of [main] on the worked scenario. *)
Lemma main_round_3_1 :
  result (main_round 3 1 main_heap) = Some [(2, 3); (1, 2)].
Proof. vm_compute. reflexivity. Qed.

(** The one check of the program: [main] asserts [size <= MAX_SIZE]
    before it calls [calculateProbabilities], so a larger deck is
    rejected with no table built. *)
Lemma main_asserts_size (size numberLower : Z) (h : heap) :
  MAX_SIZE < size -> main_round size numberLower h = Fault AssertionFailed h.
Proof.
  intros H. unfold main_round.
  destruct (size <=? MAX_SIZE) eqn:E; [apply Z.leb_le in E; lia|reflexivity].
Qed.

(** ** The recurrence *)

Lemma sum_list_app l1 l2 : sum_list (l1 ++ l2) = sum_list l1 + sum_list l2.
Proof.
  unfold sum_list. induction l1 as [|x l1 IH]; simpl; [reflexivity|].
  rewrite IH. lia.
Qed.

Lemma sum_range_empty f lo hi : hi <= lo -> sum_range f lo hi = 0.
Proof. intros H. unfold sum_range. rewrite seqZ_nil by lia. reflexivity. Qed.

Lemma sum_range_snoc f lo hi :
  lo <= hi -> sum_range f lo (hi + 1) = sum_range f lo hi + f hi.
Proof.
  intros H. unfold sum_range.
  replace (hi + 1 - lo) with ((hi - lo) + 1) by lia.
  rewrite seqZ_app by lia. rewrite fmap_app, sum_list_app.
  replace (lo + (hi - lo)) with hi by lia.
  rewrite (seqZ_cons hi 1) by lia.
  rewrite (seqZ_nil (Z.succ hi)) by lia.
  simpl. lia.
Qed.

Lemma sum_range_ext f g lo hi :
  (forall i, lo <= i < hi -> f i = g i) -> sum_range f lo hi = sum_range g lo hi.
Proof.
  intros H. unfold sum_range. f_equal.
  apply list_fmap_ext. intros i x Hx.
  apply lookup_seqZ in Hx. apply H. lia.
Qed.

Lemma sum_between_fmap f n lo hi :
  0 <= lo <= hi -> hi <= n ->
  sum_between (f <$> seqZ 0 n) lo hi = sum_range f lo hi.
Proof.
  intros Hlo Hhi. unfold sum_between, sum_range.
  replace n with (lo + ((hi - lo) + (n - hi))) by lia.
  rewrite !seqZ_app by lia. rewrite !fmap_app.
  rewrite drop_app_length' by (rewrite length_fmap, length_seqZ; lia).
  rewrite take_app_length' by (rewrite length_fmap, length_seqZ; lia).
  rewrite Z.add_0_l. reflexivity.
Qed.

(** The two summation loops of [getNumberPathsLeadingTo]. *)
Lemma summation_loop size f h p lo hi s0 :
  table_is size f (matrix h) ->
  0 <= p < size - 1 -> 0 <= lo <= hi -> hi <= size - p ->
  size <= INT_MAX ->
  fits int_half s0 = true ->
  for_acc lo hi (fun i sum => x <- load_matrix p i ;; int_ Wrap (sum + x)) s0 h
    = Done (wrap int_half (s0 + sum_range (f p) lo hi)) h.
Proof.
  intros Htable Hp Hlo Hhi Hsize Hs0.
  destruct (for_acc_rule
    (fun i s h1 => h1 = h /\ s = wrap int_half (s0 + sum_range (f p) lo i))
    (fun i sum => x <- load_matrix p i ;; int_ Wrap (sum + x))
    lo hi s0 h) as (s' & h' & Hrun & -> & ->).
  - lia.
  - split; [reflexivity|].
    rewrite sum_range_empty, Z.add_0_r by lia.
    symmetry. apply wrap_fits; exact Hs0.
  - intros i s h1 Hi (-> & ->).
    assert (Hin : 0 <= i < size - p) by lia.
    rewrite (bind_done _ _ _ _ _ (load_matrix_table _ _ h p i Htable Hp Hin)).
    eexists _, h. split; [reflexivity|]. split; [reflexivity|].
    rewrite wrap_add_l by reflexivity.
    rewrite sum_range_snoc by lia. f_equal. lia.
  - exact Hrun.
Qed.

Lemma rem_2_even b : 0 <= b -> (Z.rem b 2 =? 0) = Z.even b.
Proof.
  intros H. rewrite Z.rem_mod_nonneg by lia. rewrite Zmod_even.
  destruct (Z.even b); reflexivity.
Qed.

Lemma quot_2_ceil b : 0 <= b -> (b + 1) ÷ 2 = ceil_div b 2.
Proof.
  intros H. rewrite Z.quot_div_nonneg by lia. unfold ceil_div.
  pose proof (Z.div_mod (b + 1) 2 ltac:(lia)).
  pose proof (Z.mod_pos_bound (b + 1) 2 ltac:(lia)).
  pose proof (Z.div_mod (- b) 2 ltac:(lia)).
  pose proof (Z.mod_pos_bound (- b) 2 ltac:(lia)).
  lia.
Qed.

Lemma ceil_div_2_bounds b : 0 <= b -> 0 <= ceil_div b 2 <= b.
Proof.
  intros H. unfold ceil_div.
  pose proof (Z.div_mod (- b) 2 ltac:(lia)).
  pose proof (Z.mod_pos_bound (- b) 2 ltac:(lia)).
  lia.
Qed.

Lemma getNumberCardsLeftAfterDealing_exact size stage h :
  0 <= stage < size -> size <= INT_MAX ->
  getNumberCardsLeftAfterDealing Wrap size stage h
    = Done (size - (stage + 1)) h.
Proof.
  intros Hs Hsize. unfold getNumberCardsLeftAfterDealing.
  run_int. reflexivity.
Qed.

Lemma getNumberPathsLeadingTo_table size f h s t :
  table_is size f (matrix h) ->
  1 <= s <= size - 2 -> 0 <= t <= size - s - 1 -> size <= INT_MAX ->
  getNumberPathsLeadingTo Wrap size s t h
    = Done (next_entry size (f (s - 1)) s t) h.
Proof.
  intros Htable Hs Ht Hsize.
  pose proof (ceil_div_2_bounds (size - s) ltac:(lia)) as Hlimit.
  unfold getNumberPathsLeadingTo.
  rewrite (bind_done _ _ _ _ _ (int_exact (s - 1) h ltac:(int_range))).
  rewrite (bind_done _ _ _ _ _
             (getNumberCardsLeftAfterDealing_exact size (s - 1) h
                ltac:(lia) Hsize)).
  replace (size - (s - 1 + 1)) with (size - s) by lia.
  rewrite (bind_done _ _ _ _ _ (int_exact (size - s + 1) h ltac:(int_range))).
  rewrite rem_2_even, quot_2_ceil by lia.
  unfold next_entry, cut_points.
  set (limit := ceil_div (size - s) 2) in *.
  assert (Hloops : forall k l,
    0 <= k <= size - s + 1 -> 0 <= l <= size - s + 1 ->
    for_acc l (size - s + 1)
      (fun i sum => x <- load_matrix (s - 1) i ;; int_ Wrap (sum + x))
      (wrap int_half (0 + sum_range (f (s - 1)) 0 k)) h
    = Done (wrap int_half (sum_range (f (s - 1)) 0 k
                           + sum_range (f (s - 1)) l (size - s + 1))) h).
  { intros k l Hk Hl.
    rewrite (summation_loop size f h (s - 1) l (size - s + 1)); try lia.
    - rewrite wrap_add_l by reflexivity. reflexivity.
    - exact Htable.
    - apply fits_wrap. reflexivity. }
  assert (Hfirst : forall k, 0 <= k <= size - s + 1 ->
    for_acc 0 k
      (fun i sum => x <- load_matrix (s - 1) i ;; int_ Wrap (sum + x)) 0 h
    = Done (wrap int_half (0 + sum_range (f (s - 1)) 0 k)) h).
  { intros k Hk.
    apply (summation_loop size f h (s - 1) 0 k); try lia.
    - exact Htable.
    - reflexivity. }
  destruct (Z.even (size - s)).
  - destruct (t <=? limit) eqn:E;
      [apply Z.leb_le in E | apply Z.leb_gt in E];
      run_int; simpl fst; simpl snd;
      rewrite Hfirst by lia; apply Hloops; lia.
  - destruct (t <? limit) eqn:E1;
      [apply Z.ltb_lt in E1 | apply Z.ltb_ge in E1];
      [| destruct (t =? limit) eqn:E2;
         [apply Z.eqb_eq in E2 | apply Z.eqb_neq in E2]];
      run_int; simpl fst; simpl snd;
      rewrite Hfirst by lia; apply Hloops; lia.
Qed.

Lemma next_entry_ext size prev prev' s t :
  1 <= s <= size - 2 -> 0 <= t <= size - s - 1 ->
  (forall i, 0 <= i <= size - s -> prev i = prev' i) ->
  next_entry size prev s t = next_entry size prev' s t.
Proof.
  intros Hs Ht Hext. unfold next_entry. cbv zeta.
  pose proof (ceil_div_2_bounds (size - s) ltac:(lia)) as Hlimit.
  assert (Hkl : 0 <= snd (cut_points (size - s) (ceil_div (size - s) 2) t)).
  { unfold cut_points. destruct (Z.even (size - s)); compare_cases. }
  assert (Hk : fst (cut_points (size - s) (ceil_div (size - s) 2) t)
               <= size - s + 1).
  { unfold cut_points. destruct (Z.even (size - s)); compare_cases. }
  f_equal. f_equal; apply sum_range_ext; intros i Hi; apply Hext; lia.
Qed.

(** [initialiseStage] fills row [stage] from row [stage - 1] and leaves
    the other rows alone. *)
Lemma initialiseStage_table size f h s :
  table_is size f (matrix h) ->
  1 <= s <= size - 2 -> size <= INT_MAX ->
  exists m,
    initialiseStage Wrap size s h = Done tt (set_matrix m h) /\
    table_is size
      (fun s' t' => if s' =? s then next_entry size (f (s - 1)) s t'
                    else f s' t') m.
Proof.
  intros Htable Hs Hsize. unfold initialiseStage.
  rewrite (bind_done _ _ _ _ _
             (getNumberCardsLeftAfterDealing_exact size s h ltac:(lia) Hsize)).
  replace (size - (s + 1) + 1) with (size - s) by lia.
  destruct (for_rule
    (fun i h1 =>
       h1 = set_matrix (matrix h1) h /\
       table_is size
         (fun s' t' => if (s' =? s) && (t' <? i)
                       then next_entry size (f (s - 1)) s t'
                       else f s' t') (matrix h1))
    (fun i => paths <- getNumberPathsLeadingTo Wrap size s i ;;
              store_matrix s i paths)
    0 (size - s) h) as (h' & Hrun & Hframe & Htable').
  - lia.
  - split; [destruct h; reflexivity|].
    revert Htable. apply table_is_ext. intros s' t' Hs' Ht'. compare_cases.
  - intros i h1 Hi (Hframe & Ht1).
    rewrite (bind_done _ _ _ _ _
               (getNumberPathsLeadingTo_table size _ h1 s i Ht1 Hs
                  ltac:(lia) Hsize)).
    destruct (store_matrix_table size _ h1 s i
                (next_entry size
                   (fun t' => if (s - 1 =? s) && (t' <? i)
                              then next_entry size (f (s - 1)) s t'
                              else f (s - 1) t') s i) Ht1)
      as (m' & Hst & Ht2); [lia|lia|].
    eexists. split; [exact Hst|]. simpl. split.
    + eapply set_matrix_frame, Hframe.
    + revert Ht2. apply table_is_ext. intros s' t' Hs' Ht'.
      unfold assign.
      destruct ((s' =? s) && (t' =? i)) eqn:E.
      * apply andb_prop in E as [E1 E2].
        apply Z.eqb_eq in E1. apply Z.eqb_eq in E2. subst s' t'.
        rewrite Z.eqb_refl. simpl.
        assert (E3 : (i <? i + 1) = true) by (apply Z.ltb_lt; lia).
        rewrite E3. apply next_entry_ext; [lia|lia|].
        intros j Hj.
        assert (E4 : (s - 1 =? s) = false) by (apply Z.eqb_neq; lia).
        rewrite E4. reflexivity.
      * destruct (s' =? s) eqn:E1; [|reflexivity]. simpl in *.
        apply Z.eqb_neq in E.
        destruct (t' <? i) eqn:E2;
          [apply Z.ltb_lt in E2 | apply Z.ltb_ge in E2];
          destruct (t' <? i + 1) eqn:E3;
          [apply Z.ltb_lt in E3 | apply Z.ltb_ge in E3
          |apply Z.ltb_lt in E3 | apply Z.ltb_ge in E3];
          try reflexivity; lia.
  - exists (matrix h'). split; [rewrite Hrun; f_equal; exact Hframe|].
    revert Htable'. apply table_is_ext. intros s' t' Hs' Ht'.
    destruct (s' =? s) eqn:E1; [|reflexivity]. simpl.
    apply Z.eqb_eq in E1. subst s'.
    assert (E2 : (t' <? size - s) = true) by (apply Z.ltb_lt; lia).
    rewrite E2. reflexivity.
Qed.

Lemma calculateMatrix_table size numberLower h :
  2 <= size <= INT_MAX -> 0 <= numberLower <= size ->
  table_is size (fun _ _ => 0) (matrix h) ->
  exists m g,
    calculateMatrix Wrap size numberLower h = Done tt (set_matrix m h) /\
    table_is size g m /\
    (forall t, 0 <= t < size -> g 0 t = first_row_entry size numberLower t) /\
    recurrence size g (size - 1).
Proof.
  intros Hsize Hnl Hzero. unfold calculateMatrix.
  destruct (initialiseFirstStage_table size numberLower h Hsize Hnl Hzero)
    as (m0 & Hfirst & Htable0).
  rewrite (bind_done _ _ _ _ _ Hfirst).
  rewrite (bind_done _ _ _ _ _
             (int_exact (size - 1) (set_matrix m0 h) ltac:(int_range))).
  destruct (for_rule
    (fun i h1 =>
       h1 = set_matrix (matrix h1) h /\
       exists g, table_is size g (matrix h1) /\
                 (forall t, 0 <= t < size ->
                    g 0 t = first_row_entry size numberLower t) /\
                 recurrence size g i)
    (fun i => initialiseStage Wrap size i)
    1 (size - 1) (set_matrix m0 h))
    as (h' & Hrun & Hframe & g & Htable & Hrow0 & Hrec).
  - lia.
  - split; [reflexivity|].
    exists (first_stage size numberLower). split; [exact Htable0|]. split.
    + intros t Ht. reflexivity.
    + intros s t Hs. lia.
  - intros i h1 Hi (Hframe & g & Htable & Hrow0 & Hrec).
    destruct (initialiseStage_table size g h1 i Htable ltac:(lia)
                ltac:(int_range)) as (m' & Hstage & Htable').
    eexists. split; [exact Hstage|]. simpl. split.
    + eapply set_matrix_frame, Hframe.
    + eexists. split; [exact Htable'|]. split.
      * intros t Ht. cbv beta.
        assert (E : (0 =? i) = false) by (apply Z.eqb_neq; lia).
        rewrite E. apply Hrow0, Ht.
      * intros s t Hs Ht. cbv beta.
        destruct (s =? i) eqn:E;
          [apply Z.eqb_eq in E | apply Z.eqb_neq in E].
        -- subst s. apply next_entry_ext; [lia|lia|].
           intros j Hj.
           assert (E : (i - 1 =? i) = false) by (apply Z.eqb_neq; lia).
           rewrite E. reflexivity.
        -- rewrite (Hrec s t) by lia.
           apply next_entry_ext; [lia|lia|].
           intros j Hj.
           assert (E' : (s - 1 =? i) = false) by (apply Z.eqb_neq; lia).
           rewrite E'. reflexivity.
  - exists (matrix h'), g.
    split; [|split; [exact Htable | split; [exact Hrow0 | exact Hrec]]].
    rewrite Hrun. f_equal. rewrite Hframe at 1. reflexivity.
Qed.

(** Up to the thirteen cards of the game the sums of section 4.2 fit in
    an [int]. *)
Lemma totals_fit_up_to_13 (size numberLower : Z) :
  2 <= size <= 13 -> 0 <= numberLower <= size ->
  totals_fit size (matrix (final (after_matrix size numberLower))).
Proof.
  apply (on_inputs 2 13
           (fun s n => (s, matrix (final (after_matrix s n))))
           (fun x => totals_fit (fst x) (snd x))).
  vm_cast_no_check (eq_refl true).
Qed.

(** C3.  In the table [calculateMatrix] builds, the entry at stage
    [s >= 1] and lower-count [t] is the sum of the previous row over the
    indices [0 <= i < k] plus the indices [l <= i <= before], where
    [before = size - s], [limit = ceil (before / 2)] and [(k, l)] is given
    by the case split of section 4.2.  The sum is the [int] sum of the
    code: it is the exact sum for every deck the program accepts
    ([size <= MAX_SIZE]) and whenever else the exact sum is
    representable, and the exact sum reduced to 32 bits in general. *)
Theorem path_count_recurrence (size numberLower s t : Z) :
  2 <= size <= INT_MAX -> 0 <= numberLower <= size ->
  1 <= s <= size - 2 -> 0 <= t <= size - s - 1 ->
  exists previous row,
    fault_of (after_matrix size numberLower) = None /\
    index (matrix (final (after_matrix size numberLower))) (s - 1)
      = Some previous /\
    index (matrix (final (after_matrix size numberLower))) s = Some row /\
    let total := recurrence_total size previous s t in
    index row t = Some (wrap int_half total) /\
    (fits int_half total = true -> index row t = Some total) /\
    (size <= MAX_SIZE -> index row t = Some total).
Proof.
  intros Hsize Hnl Hs Ht.
  destruct (createMatrix_table size empty_heap Hsize)
    as (m0 & Hcreate & Hzero).
  destruct (calculateMatrix_table size numberLower (set_matrix m0 empty_heap)
              Hsize Hnl Hzero) as (m & g & Hrun & Htable & _ & Hrec).
  pose proof (table_row size g m (s - 1) Htable ltac:(lia)) as Hprevious.
  pose proof (table_row size g m s Htable ltac:(lia)) as Hrow.
  assert (Hafter : after_matrix size numberLower
                   = Done tt (set_matrix m empty_heap)).
  { unfold after_matrix. rewrite (bind_done _ _ _ _ _ Hcreate). exact Hrun. }
  pose proof (ceil_div_2_bounds (size - s) ltac:(lia)) as Hlimit.
  assert (Hk : 0 <= fst (cut_points (size - s) (ceil_div (size - s) 2) t)
               <= size - s + 1).
  { unfold cut_points. destruct (Z.even (size - s)); compare_cases. }
  assert (Hl : 0 <= snd (cut_points (size - s) (ceil_div (size - s) 2) t)
               <= size - s + 1).
  { unfold cut_points. destruct (Z.even (size - s)); compare_cases. }
  assert (Hentry : index (g s <$> seqZ 0 (size - s)) t
                   = Some (wrap int_half
                             (recurrence_total size
                                (g (s - 1) <$> seqZ 0 (size - (s - 1))) s t))).
  { rewrite index_lookup by lia. rewrite list_lookup_fmap.
    rewrite lookup_seqZ_lt by lia. simpl. f_equal.
    rewrite Z2Nat.id by lia. rewrite Z.add_0_l.
    rewrite (Hrec s t) by lia. unfold next_entry, recurrence_total. cbv zeta.
    rewrite !sum_between_fmap by lia. reflexivity. }
  eexists _, _. rewrite Hafter. simpl final. simpl matrix. simpl fault_of.
  split; [reflexivity|]. split; [exact Hprevious|]. split; [exact Hrow|].
  cbv zeta. split; [exact Hentry|]. split.
  - intros Hfits. rewrite Hentry. f_equal. apply wrap_fits, Hfits.
  - intros Hmax. rewrite Hentry. f_equal. apply wrap_fits.
    pose proof (totals_fit_up_to_13 size numberLower
                  ltac:(unfold MAX_SIZE in Hmax; lia) Hnl) as Hfit.
    rewrite Hafter in Hfit. simpl in Hfit. unfold totals_fit in Hfit.
    rewrite Forall_seqZ in Hfit. specialize (Hfit s ltac:(lia)).
    rewrite Forall_seqZ in Hfit. specialize (Hfit t ltac:(lia)).
    rewrite Hprevious in Hfit. exact Hfit.
Qed.

Lemma path_count_recurrence_witness :
  exists previous row,
    fault_of (after_matrix 5 2) = None /\
    index (matrix (final (after_matrix 5 2))) (2 - 1) = Some previous /\
    index (matrix (final (after_matrix 5 2))) 2 = Some row /\
    let total := recurrence_total 5 previous 2 1 in
    index row 1 = Some (wrap int_half total) /\
    (fits int_half total = true -> index row 1 = Some total) /\
    (5 <= MAX_SIZE -> index row 1 = Some total).
Proof.
  apply (path_count_recurrence 5 2 2 1); unfold INT_MAX, int_half; lia.
Defined.

(** ** The worked scenario *)

(** C2. The query [size = 3], [numberLower = 1] returns exactly the pairs
    (2, 3) and (1, 2), in that order; on the way the stage-0 row of path
    counts is [0, 1, 1], the stage-1 row is [1, 2], the permutation table
    is [6], the per-stage probability at index 0 is 1/6, the final
    probability is 1/2, and accumulation turns index 0 into 2/3. *)
Theorem worked_scenario_3_1 :
  result (run 3 1) = Some [(2, 3); (1, 2)] /\
  matrix (final (after_matrix 3 1)) = [[0; 1; 1]; [1; 2]] /\
  permutations (final (after_tables 3 1)) = [6] /\
  probabilities (final (after_initial 3 1)) !! 0%nat = Some (Mpq 1 6) /\
  probabilities (final (after_internal 3 1)) = [Mpq 1 6; Mpq 1 2] /\
  probabilities (final (after_accumulation 3 1)) = [Mpq 2 3; Mpq 1 2].
Proof. repeat split; vm_compute; reflexivity. Qed.

(** ** Fixed-width arithmetic up to thirteen cards *)

(** C9.  For [2 <= size <= 13] and [0 <= numberLower <= size] the run in
    which every [int], [long] and [unsigned long] result is checked
    against its type (path counts, their products with the number of
    failing cards, the accumulated sums, the permutation table and the
    exported numerators and denominators) never stops on an overflow, and
    it is the run of the machine: no value wraps around.  From three
    cards on the checked run goes through to the end. *)
Theorem fixed_width_is_exact_up_to_13 (size numberLower : Z) :
  2 <= size <= 13 -> 0 <= numberLower <= size ->
  fault_of (computeProbabilities Trap size numberLower empty_heap)
    <> Some Overflow /\
  computeProbabilities Trap size numberLower empty_heap
    = computeProbabilities Wrap size numberLower empty_heap /\
  (3 <= size ->
   fault_of (computeProbabilities Trap size numberLower empty_heap) = None).
Proof.
  apply (on_inputs 2 13
           (fun s n => (s, computeProbabilities Trap s n empty_heap,
                        computeProbabilities Wrap s n empty_heap))
           (fun x => fault_of (snd (fst x)) <> Some Overflow /\
                     snd (fst x) = snd x /\
                     (3 <= fst (fst x) -> fault_of (snd (fst x)) = None))).
  vm_cast_no_check (eq_refl true).
Qed.

Lemma fixed_width_is_exact_up_to_13_witness :
  fault_of (computeProbabilities Trap 13 0 empty_heap) <> Some Overflow /\
  computeProbabilities Trap 13 0 empty_heap
    = computeProbabilities Wrap 13 0 empty_heap /\
  (3 <= 13 -> fault_of (computeProbabilities Trap 13 0 empty_heap) = None).
Proof. apply (fixed_width_is_exact_up_to_13 13 0); lia. Defined.

(** ** Deciding the properties of section 8 *)

#[global] Instance Qle_dec (a b : Q) : Decision (a <= b)%Q.
Proof. unfold Qle. apply _. Defined.

#[global] Instance Qeq_dec' (a b : Q) : Decision (a == b)%Q.
Proof. unfold Qeq. apply _. Defined.

#[global] Instance in_unit_interval_dec p : Decision (in_unit_interval p).
Proof. unfold in_unit_interval. apply _. Defined.

#[global] Instance first_entry_is_dec q v : Decision (first_entry_is q v).
Proof. destruct v; simpl; apply _. Defined.

#[global] Instance descending_dec v : Decision (descending v).
Proof.
  induction v as [|a [|b v'] IH]; simpl in *; apply _.
Defined.

Lemma descending_lookup (v : list Q) (n : nat) a b :
  descending v -> v !! n = Some a -> v !! S n = Some b -> (b <= a)%Q.
Proof.
  revert n. induction v as [|x v IH]; intros n Hd Ha Hb; [discriminate|].
  destruct v as [|y v]; [discriminate|].
  destruct Hd as [Hxy Hd].
  destruct n as [|n]; simpl in *.
  - congruence.
  - eapply IH; eassumption.
Qed.

Lemma lookup_descending (v : list Q) :
  (forall (n : nat) a b, v !! n = Some a -> v !! S n = Some b -> (b <= a)%Q) ->
  descending v.
Proof.
  induction v as [|x [|y v] IH]; intros H; simpl; try exact I.
  split.
  - apply (H 0%nat); reflexivity.
  - apply IH. intros n a b Ha Hb. apply (H (S n)); assumption.
Qed.

Lemma non_increasing_descending (v : list (Z * Z)) :
  non_increasing v <-> descending (fraction <$> v).
Proof.
  split.
  - intros H. apply lookup_descending. intros n a b Ha Hb.
    rewrite list_lookup_fmap in Ha, Hb.
    destruct (v !! n) as [a'|] eqn:Ea; [|discriminate].
    destruct (v !! S n) as [b'|] eqn:Eb; [|discriminate].
    simpl in *. injection Ha as <-. injection Hb as <-.
    eapply H; eassumption.
  - intros H n a b Ha Hb.
    apply (descending_lookup (fraction <$> v) n); [assumption| |];
      rewrite list_lookup_fmap; [rewrite Ha | rewrite Hb]; reflexivity.
Qed.

#[global] Instance non_increasing_dec v : Decision (non_increasing v).
Proof.
  refine (cast_if (decide (descending (fraction <$> v))));
    abstract (rewrite non_increasing_descending; assumption).
Defined.

(** ** Array bounds *)

(** X15.  From three cards on (and up to the thirteen of the game) every
    access of a valid query is within the arrays the run allocates, and
    no denominator is zero: the run goes through to the end. *)
Lemma run_finishes_from_3_to_13 (size numberLower : Z) :
  3 <= size <= 13 -> 0 <= numberLower <= size ->
  fault_of (run size numberLower) = None.
Proof.
  apply (on_inputs 3 13 run (fun o => fault_of o = None)).
  vm_cast_no_check (eq_refl true).
Qed.

Lemma run_finishes_from_3_to_13_witness : fault_of (run 13 6) = None.
Proof. apply (run_finishes_from_3_to_13 13 6); lia. Defined.

(** C5 (fails at [size = 2]).  With two cards the permutation table has
    [size - 2 = 0] cells, yet [calculatePermutations] passes its guard
    [size > 0] and writes cell 0, and [getNumberShuffles] reads cell
    [lengthOfPermutations - 1 = -1]: every query with [size = 2] stops at
    the out-of-bounds write. *)
Theorem size_2_overruns_the_permutation_table :
  fault_of (run 2 0) = Some (OutOfBounds A_permutations 0) /\
  fault_of (run 2 1) = Some (OutOfBounds A_permutations 0) /\
  fault_of (run 2 2) = Some (OutOfBounds A_permutations 0) /\
  permutations (final (run 2 0)) = [] /\
  (let h := final (createPermutations Wrap 2 empty_heap) in
   permutations h = [] /\
   calculatePermutations Wrap 2 h = Fault (OutOfBounds A_permutations 0) h /\
   getNumberShuffles Wrap 2 h = Fault (OutOfBounds A_permutations (-1)) h).
Proof. repeat split; vm_compute; reflexivity. Qed.

(** ** Brute-force equivalence *)

(** X16.  For every deck of two to seven cards and every valid
    [numberLower] the path-count table is the brute-force count: entry
    [t] of row [s] is the number of deals of [s + 1] cards that the
    majority predictor calls correctly throughout and that leave [t]
    cards below the last one. *)
Lemma matrix_is_brute_force_count (size numberLower : Z) :
  2 <= size <= 7 -> 0 <= numberLower <= size ->
  after_matrix size numberLower
    = Done tt (set_matrix
                 (BruteForce.path_count_table (Z.to_nat size)
                                              (Z.to_nat numberLower))
                 empty_heap).
Proof.
  apply (on_inputs 2 7
           (fun s n => (after_matrix s n,
                        BruteForce.path_count_table (Z.to_nat s) (Z.to_nat n)))
           (fun x => fst x = Done tt (set_matrix (snd x) empty_heap))).
  vm_cast_no_check (eq_refl true).
Qed.

Lemma matrix_is_brute_force_count_witness :
  after_matrix 6 2
    = Done tt (set_matrix
                 (BruteForce.path_count_table (Z.to_nat 6) (Z.to_nat 2))
                 empty_heap).
Proof. apply (matrix_is_brute_force_count 6 2); lia. Defined.

(** X17.  For every deck of three to seven cards and every valid
    [numberLower] the reported pairs are the brute-force ratios in lowest
    terms: at index [n], the deals of [n + 1] cards that the majority
    predictor calls correctly throughout, over all deals of [n + 1]
    cards. *)
Lemma fractions_are_brute_force_ratios (size numberLower : Z) :
  3 <= size <= 7 -> 0 <= numberLower <= size ->
  result (run size numberLower)
    = Some (BruteForce.survival_fractions (Z.to_nat size)
                                          (Z.to_nat numberLower)).
Proof.
  apply (on_inputs 3 7
           (fun s n => (run s n,
                        BruteForce.survival_fractions (Z.to_nat s) (Z.to_nat n)))
           (fun x => result (fst x) = Some (snd x))).
  vm_cast_no_check (eq_refl true).
Qed.

Lemma fractions_are_brute_force_ratios_witness :
  result (run 6 2)
    = Some (BruteForce.survival_fractions (Z.to_nat 6) (Z.to_nat 2)).
Proof. apply (fractions_are_brute_force_ratios 6 2); lia. Defined.

(** C1 (fails at [size = 2]).  With two cards the table still is the
    brute-force count, and brute force gives one fraction per query
    (1/1, 1/2 and 1/1 for [numberLower] 0, 1 and 2), but the run reports
    none: it stops at the out-of-bounds write to the empty permutation
    table. *)
Theorem size_2_reports_no_brute_force_ratio :
  matrix (final (after_matrix 2 0)) = BruteForce.path_count_table 2 0 /\
  matrix (final (after_matrix 2 1)) = BruteForce.path_count_table 2 1 /\
  matrix (final (after_matrix 2 2)) = BruteForce.path_count_table 2 2 /\
  BruteForce.survival_fractions 2 0 = [(1, 1)] /\
  BruteForce.survival_fractions 2 1 = [(1, 2)] /\
  BruteForce.survival_fractions 2 2 = [(1, 1)] /\
  run 2 0 = Fault (OutOfBounds A_permutations 0) (final (run 2 0)) /\
  run 2 1 = Fault (OutOfBounds A_permutations 0) (final (run 2 1)) /\
  run 2 2 = Fault (OutOfBounds A_permutations 0) (final (run 2 2)).
Proof. repeat split; vm_compute; reflexivity. Qed.

(** ** Where the fixed-width arithmetic gives out *)

(** With fourteen cards the two path counts of the last stage still fit
    in an [int] but their sum does not: the checked run stops on an
    overflow, and on the machine the final probability comes out
    negative. *)
Lemma overflow_at_14 :
  index (matrix (final (after_matrix 14 0))) 12
    = Some [1254730560; 2130530634] /\
  fits int_half (1254730560 + 2130530634) = false /\
  fault_of (computeProbabilities Trap 14 0 empty_heap) = Some Overflow /\
  probabilities (final (after_internal 14 0)) !! 12%nat
    = Some (Mpq (-454853051) 43589145600).
Proof. repeat split; vm_compute; reflexivity. Qed.

(** ** Monotonicity *)

(** C7 as stated (every valid input, no bound on [size]) fails: with
    [size = 14], [numberLower = 0] the wrapped path counts make the
    reported entry 11 smaller than entry 12. *)
Lemma monotonicity_fails_at_14 :
  reported (run 14 0) 11 = Some (652039, 1676505600) /\
  reported (run 14 0) 12 = Some (454853051, 43589145600) /\
  ~ returns non_increasing (run 14 0).
Proof.
  split; [|split].
  - vm_compute. reflexivity.
  - vm_compute. reflexivity.
  - refine (refute _ _ _). vm_cast_no_check (eq_refl false).
Qed.

(** C7, amended.  For [3 <= size <= 13] and [0 <= numberLower <= size] the
    query returns [size - 1] fractions with positive denominators, and
    the fraction at index [n] is at least the fraction at index [n + 1]. *)
Theorem cumulative_vector_is_non_increasing (size numberLower : Z) :
  3 <= size <= 13 -> 0 <= numberLower <= size ->
  returns (fun v => Z.of_nat (length v) = size - 1 /\
                    Forall (fun p => 0 < snd p) v /\
                    non_increasing v)
          (run size numberLower).
Proof.
  apply (on_inputs 3 13 (fun s n => (s, run s n))
           (fun x => returns (fun v => Z.of_nat (length v) = fst x - 1 /\
                                       Forall (fun p => 0 < snd p) v /\
                                       non_increasing v) (snd x))).
  vm_cast_no_check (eq_refl true).
Qed.

Lemma cumulative_vector_is_non_increasing_witness :
  returns (fun v => Z.of_nat (length v) = 13 - 1 /\
                    Forall (fun p => 0 < snd p) v /\
                    non_increasing v)
          (run 13 0).
Proof. apply (cumulative_vector_is_non_increasing 13 0); lia. Defined.

(** ** Range *)

(** C8 as stated (every valid input, no bound on [size]) fails: with
    [size = 21], [numberLower = 0] the first reported numerator exceeds
    its denominator. *)
Lemma range_fails_at_21 :
  reported (run 21 0) 0 = Some (16792263138829689291, 4515810044182979019) /\
  ~ returns (Forall in_unit_interval) (run 21 0).
Proof.
  split; [vm_compute; reflexivity|].
  refine (refute _ _ _). vm_cast_no_check (eq_refl false).
Qed.

(** C8, amended.  For [3 <= size <= 20] (which covers the thirteen cards
    of the game) and [0 <= numberLower <= size] every reported pair has
    [0 <= numerator <= denominator]. *)
Theorem exported_probabilities_in_unit_interval (size numberLower : Z) :
  3 <= size <= 20 -> 0 <= numberLower <= size ->
  returns (Forall in_unit_interval) (run size numberLower).
Proof.
  apply (on_inputs 3 20 run (returns (Forall in_unit_interval))).
  vm_cast_no_check (eq_refl true).
Qed.

Lemma exported_probabilities_in_unit_interval_witness :
  returns (Forall in_unit_interval) (run 13 0).
Proof. apply (exported_probabilities_in_unit_interval 13 0); lia. Defined.

(** ** Mass conservation *)

(** C6 as stated fails: for [size = 3], [numberLower = 1] the reported
    fractions 2/3 and 1/2 add up to 7/6, whereas the first prediction is
    correct with probability [(0 + 1 + 1) / 3 = 2/3]. *)
Lemma mass_conservation_fails_at_3_1 :
  result (run 3 1) = Some [(2, 3); (1, 2)] /\
  matrix (final (after_matrix 3 1)) = [[0; 1; 1]; [1; 2]] /\
  ~ returns (fun v => sum_Q (fraction <$> v)
                      == first_prediction_probability
                           (matrix (final (after_matrix 3 1))) 3)%Q
            (run 3 1).
Proof.
  split; [|split].
  - vm_compute. reflexivity.
  - vm_compute. reflexivity.
  - refine (refute _ _ _). vm_cast_no_check (eq_refl false).
Qed.

(** C6, amended.  For [3 <= size <= 13] and [0 <= numberLower <= size] it
    is the first entry of the reported cumulative vector, that is the sum
    of the per-stage probabilities before accumulation, that equals
    [(sum_i pathCount[0][i]) / size]. *)
Theorem first_entry_is_first_prediction_probability (size numberLower : Z) :
  3 <= size <= 13 -> 0 <= numberLower <= size ->
  returns (first_entry_is
             (first_prediction_probability
                (matrix (final (after_matrix size numberLower))) size))
          (run size numberLower) /\
  (sum_Q (mpq_value <$> probabilities (final (after_internal size numberLower)))
   == first_prediction_probability
        (matrix (final (after_matrix size numberLower))) size)%Q.
Proof.
  apply (on_inputs 3 13
           (fun s n => (first_prediction_probability
                          (matrix (final (after_matrix s n))) s,
                        run s n,
                        probabilities (final (after_internal s n))))
           (fun x => returns (first_entry_is (fst (fst x))) (snd (fst x)) /\
                     (sum_Q (mpq_value <$> snd x) == fst (fst x))%Q)).
  vm_cast_no_check (eq_refl true).
Qed.

Lemma first_entry_is_first_prediction_probability_witness :
  returns (first_entry_is
             (first_prediction_probability
                (matrix (final (after_matrix 13 0))) 13))
          (run 13 0) /\
  (sum_Q (mpq_value <$> probabilities (final (after_internal 13 0)))
   == first_prediction_probability
        (matrix (final (after_matrix 13 0))) 13)%Q.
Proof. apply (first_entry_is_first_prediction_probability 13 0); lia. Defined.

(** Beyond thirteen cards the statement is lost to wrap-around. *)
Lemma first_entry_is_lost_at_14 :
  ~ returns (first_entry_is
               (first_prediction_probability
                  (matrix (final (after_matrix 14 0))) 14))
            (run 14 0).
Proof. refine (refute _ _ _). vm_cast_no_check (eq_refl false). Qed.

(* ================================================================== *)
(** * The phases of the computation *)

(** ** The minority side *)

(** X1.  For [0 <= numberLower < numberCardsLeft <= INT_MAX],
    [numberFailingCards] returns the smaller of [numberLower] and
    [numberHigher = numberCardsLeft - numberLower - 1]: the size of the
    side the majority predictor does not call.  The two sides can be
    swapped without changing the result, and the failing cards are never
    more than half of the [numberCardsLeft - 1] cards that can come. *)
Theorem numberFailingCards_is_the_minority_side
    (numberCardsLeft numberLower : Z) (h : heap) :
  0 <= numberLower < numberCardsLeft -> numberCardsLeft <= INT_MAX ->
  let numberHigher := numberCardsLeft - numberLower - 1 in
  numberFailingCards Wrap numberCardsLeft numberLower h
    = Done (Z.min numberLower numberHigher) h /\
  numberFailingCards Wrap numberCardsLeft numberHigher h
    = Done (Z.min numberLower numberHigher) h /\
  0 <= 2 * Z.min numberLower numberHigher <= numberCardsLeft - 1.
Proof.
  intros Hnl Hmax. cbv zeta. unfold numberFailingCards.
  split; [|split]; try lia.
  - run_int. f_equal. compare_cases.
  - run_int. f_equal. compare_cases.
Qed.

Lemma numberFailingCards_is_the_minority_side_witness :
  let numberHigher := 13 - 4 - 1 in
  numberFailingCards Wrap 13 4 empty_heap
    = Done (Z.min 4 numberHigher) empty_heap /\
  numberFailingCards Wrap 13 numberHigher empty_heap
    = Done (Z.min 4 numberHigher) empty_heap /\
  0 <= 2 * Z.min 4 numberHigher <= 13 - 1.
Proof.
  apply (numberFailingCards_is_the_minority_side 13 4 empty_heap);
    unfold INT_MAX, int_half; lia.
Defined.

(** ** Loops without iteration *)

Lemma for_acc_empty {St} lo hi (body : Z -> St -> M St) s h :
  hi <= lo -> for_acc lo hi body s h = Done s h.
Proof.
  intros H. unfold for_acc.
  replace (Z.to_nat (hi - lo)) with 0%nat by lia. reflexivity.
Qed.

Lemma for_empty lo hi (body : Z -> M unit) h :
  hi <= lo -> for_ lo hi body h = Done tt h.
Proof. intros H. unfold for_. apply for_acc_empty, H. Qed.

Lemma calloc_nothing {A} n (zero : A) : n <= 0 -> calloc n zero = [].
Proof.
  intros H. unfold calloc. replace (Z.to_nat n) with 0%nat by lia. reflexivity.
Qed.

(** ** Allocation *)

Lemma constant_fmap_seqZ {A} (v : A) lo n :
  (fun _ => v) <$> seqZ lo n = replicate (Z.to_nat n) v.
Proof.
  apply list_eq. intros i. rewrite list_lookup_fmap.
  destruct (decide (Z.of_nat i < n)) as [Hi|Hi].
  - rewrite lookup_seqZ_lt by lia. simpl. symmetry.
    apply lookup_replicate_2. lia.
  - rewrite lookup_seqZ_ge by lia. simpl. symmetry.
    apply lookup_ge_None_2. rewrite length_replicate. lia.
Qed.

Lemma zero_table_unique size m :
  2 <= size -> table_is size (fun _ _ => 0) m -> m = zero_table size.
Proof.
  intros Hsize Htable. apply list_eq. intros i.
  unfold zero_table. rewrite list_lookup_fmap.
  destruct (decide (Z.of_nat i < size - 1)) as [Hi|Hi].
  - pose proof (table_row size _ m (Z.of_nat i) Htable ltac:(lia)) as Hrow.
    rewrite index_lookup, Nat2Z.id in Hrow by lia. rewrite Hrow.
    rewrite lookup_seqZ_lt by lia. simpl. f_equal.
    rewrite Z.add_0_l. apply constant_fmap_seqZ.
  - destruct Htable as [Hlen _].
    rewrite lookup_seqZ_ge by lia. simpl.
    apply lookup_ge_None_2. lia.
Qed.

(** [createMatrix] on any [int] size but the least. *)
Lemma createMatrix_zero_table size h :
  INT_MIN < size <= INT_MAX ->
  createMatrix Wrap size h = Done tt (set_matrix (zero_table size) h).
Proof.
  intros Hsize. destruct (Z_lt_le_dec size 2) as [Hsmall|Hbig].
  - unfold createMatrix.
    rewrite (bind_done _ _ _ _ _ (int_exact (size - 1) h ltac:(int_range))).
    unfold get at 1. unfold bind at 1. unfold put at 1. unfold bind at 1.
    rewrite for_empty by lia. rewrite calloc_nothing by lia.
    unfold zero_table. rewrite seqZ_nil by lia. reflexivity.
  - destruct (createMatrix_table size h ltac:(lia)) as (m & Hrun & Htable).
    rewrite Hrun. rewrite (zero_table_unique size m); [reflexivity|lia|].
    exact Htable.
Qed.

(** X2.  For every [int] size above [INT_MIN], [createMatrix] runs
    without a fault and leaves a table of [max 0 (size - 1)] rows, row
    [i] holding [size - i] cells, every cell zero; for [size <= 1] the
    table has no row. *)
Theorem createMatrix_allocates_a_zeroed_triangle (size : Z) (h : heap) :
  INT_MIN < size <= INT_MAX ->
  createMatrix Wrap size h = Done tt (set_matrix (zero_table size) h) /\
  Z.of_nat (length (zero_table size)) = Z.max 0 (size - 1) /\
  forall i row, zero_table size !! i = Some row ->
    Z.of_nat (length row) = size - Z.of_nat i /\ Forall (fun x => x = 0) row.
Proof.
  intros Hsize. split; [|split].
  - apply createMatrix_zero_table, Hsize.
  - unfold zero_table. rewrite length_fmap, length_seqZ. lia.
  - intros i row Hrow. unfold zero_table in Hrow.
    rewrite list_lookup_fmap in Hrow.
    destruct (seqZ 0 (size - 1) !! i) as [j|] eqn:Hj; [|discriminate].
    apply lookup_seqZ in Hj as [-> Hi]. simpl in Hrow.
    injection Hrow as <-. split.
    + rewrite length_replicate. lia.
    + apply Forall_replicate. reflexivity.
Qed.

Lemma createMatrix_allocates_a_zeroed_triangle_witness :
  createMatrix Wrap 4 empty_heap
    = Done tt (set_matrix (zero_table 4) empty_heap) /\
  Z.of_nat (length (zero_table 4)) = Z.max 0 (4 - 1) /\
  forall i row, zero_table 4 !! i = Some row ->
    Z.of_nat (length row) = 4 - Z.of_nat i /\ Forall (fun x => x = 0) row.
Proof.
  apply (createMatrix_allocates_a_zeroed_triangle 4 empty_heap);
    unfold INT_MIN, INT_MAX, int_half; lia.
Defined.

(** ** Decks of fewer than two cards *)

Lemma index_nil {A} (i : Z) : index ([] : list A) i = None.
Proof. unfold index. destruct (0 <=? i); reflexivity. Qed.

Lemma createProbabilities_nothing size h :
  INT_MIN < size <= 1 ->
  createProbabilities Wrap size h = Done tt (set_probabilities [] h).
Proof.
  intros Hsize. unfold createProbabilities, getLengthOfProbabilities.
  rewrite (bind_done _ _ _ _ _ (int_exact (size - 1) h ltac:(int_range))).
  unfold get at 1. unfold bind at 1. unfold put at 1. unfold bind at 1.
  rewrite for_empty by lia. rewrite calloc_nothing by lia. reflexivity.
Qed.

Lemma createPermutations_nothing size h :
  INT_MIN + 1 < size <= 2 ->
  createPermutations Wrap size h = Done tt (set_permutations [] h).
Proof.
  intros Hsize. unfold createPermutations, getLengthOfPermutations.
  rewrite (bind_done _ _ _ _ _ (int_exact (size - 2) h ltac:(int_range))).
  unfold get at 1. unfold bind at 1. unfold put at 1.
  rewrite calloc_nothing by lia. reflexivity.
Qed.

(** Without a table the first-stage loop stops at its first write, if it
    has one. *)
Lemma calculateMatrix_without_rows size numberLower h :
  INT_MIN < size <= 1 -> matrix h = [] ->
  calculateMatrix Wrap size numberLower h = Done tt h \/
  calculateMatrix Wrap size numberLower h = Fault (OutOfBounds A_matrix 0) h.
Proof.
  intros Hsize Hempty. unfold calculateMatrix, initialiseFirstStage.
  unfold int_ at 1. unfold ret at 1. unfold bind at 2.
  set (numberHigher := wrap int_half (size - numberLower)).
  set (k := if numberHigher >=? numberLower then numberLower else 0).
  set (l := if numberHigher >=? numberLower then size else numberLower).
  destruct (Z_lt_le_dec k l) as [Hloop|Hnone].
  - right.
    destruct (for_fault (fun _ h1 => h1 = h) (fun i => store_matrix 0 i 1)
                k l k (OutOfBounds A_matrix 0) h) as (h' & Hrun & ->).
    + lia.
    + reflexivity.
    + intros i h1 Hi. lia.
    + intros h1 ->. unfold store_matrix. rewrite Hempty, index_nil.
      reflexivity.
    + apply bind_fault, Hrun.
  - left. rewrite (bind_done _ _ _ _ _ (for_empty k l _ h Hnone)).
    rewrite (bind_done _ _ _ _ _ (int_exact (size - 1) h ltac:(int_range))).
    apply for_empty. lia.
Qed.

Lemma calculatePermutations_without_cells size h :
  INT_MIN + 1 < size <= 1 -> permutations h = [] ->
  calculatePermutations Wrap size h = Done tt h \/
  calculatePermutations Wrap size h = Fault (OutOfBounds A_permutations 0) h.
Proof.
  intros Hsize Hempty. unfold calculatePermutations, getLengthOfPermutations.
  rewrite (bind_done _ _ _ _ _ (int_exact (size - 2) h ltac:(int_range))).
  destruct (size >? 0) eqn:E; [right|left; reflexivity].
  apply Z.gtb_lt in E. assert (size = 1) as -> by lia.
  run_int. unfold store_permutations. rewrite Hempty. reflexivity.
Qed.

Lemma calculateInternalProbabilities_without_rows size h :
  INT_MIN + 1 < size <= 1 -> matrix h = [] ->
  calculateInternalProbabilities Wrap size h
    = Fault (OutOfBounds A_matrix (size - 2)) h.
Proof.
  intros Hsize Hempty.
  assert (Hinitial : calculateInitialProbabilities Wrap size h = Done tt h).
  { unfold calculateInitialProbabilities.
    rewrite (bind_done _ _ _ _ _ (int_exact (size - 2) h ltac:(int_range))).
    apply for_empty. lia. }
  unfold calculateInternalProbabilities.
  rewrite (bind_done _ _ _ _ _ Hinitial).
  unfold calculateFinalProbability, getLengthOfProbabilities.
  rewrite (bind_done _ _ _ _ _ (int_exact (size - 1) h ltac:(int_range))).
  rewrite (bind_done _ _ _ _ _ (int_exact (size - 2) h ltac:(int_range))).
  apply bind_fault. unfold load_matrix. rewrite Hempty, index_nil. reflexivity.
Qed.

(** X3.  A deck of fewer than two cards is not rejected: for every
    [size <= 1] (above [INT_MIN + 1]) and every [numberLower],
    [calculateProbabilities] stops on an access outside the path-count
    table or the permutation table, both of which are empty at that
    point. *)
Theorem decks_below_two_cards_fault (size numberLower : Z) (h : heap) :
  INT_MIN + 1 < size <= 1 ->
  exists a i h',
    calculateProbabilities Wrap size numberLower h
      = Fault (OutOfBounds a i) h' /\
    (a = A_matrix \/ a = A_permutations) /\
    matrix h' = [] /\ permutations h' = [].
Proof.
  intros Hsize.
  pose proof (createMatrix_zero_table size h ltac:(int_range)) as Hmatrix.
  assert (Hzero : zero_table size = [])
    by (unfold zero_table; rewrite seqZ_nil by lia; reflexivity).
  rewrite Hzero in Hmatrix.
  pose proof (createProbabilities_nothing size (set_matrix [] h)
                ltac:(lia)) as Hprobabilities.
  pose proof (createPermutations_nothing size
                (set_probabilities [] (set_matrix [] h)) ltac:(lia))
    as Hpermutations.
  set (h3 := set_permutations [] (set_probabilities [] (set_matrix [] h))) in *.
  unfold calculateProbabilities.
  rewrite (bind_done _ _ _ _ _ Hmatrix).
  rewrite (bind_done _ _ _ _ _ Hprobabilities).
  rewrite (bind_done _ _ _ _ _ Hpermutations).
  destruct (calculateMatrix_without_rows size numberLower h3 ltac:(lia)
              eq_refl) as [Hdone|Hfault].
  2: { exists A_matrix, 0, h3. rewrite (bind_fault _ _ _ _ _ Hfault).
       repeat split. left. reflexivity. }
  rewrite (bind_done _ _ _ _ _ Hdone).
  destruct (calculatePermutations_without_cells size h3 Hsize eq_refl)
    as [Hdone'|Hfault].
  2: { exists A_permutations, 0, h3. rewrite (bind_fault _ _ _ _ _ Hfault).
       repeat split. right. reflexivity. }
  rewrite (bind_done _ _ _ _ _ Hdone').
  exists A_matrix, (size - 2), h3.
  rewrite (bind_fault _ _ _ _ _
             (calculateInternalProbabilities_without_rows size h3 Hsize
                eq_refl)).
  repeat split. left. reflexivity.
Qed.

Lemma decks_below_two_cards_fault_witness :
  exists a i h',
    calculateProbabilities Wrap 1 0 empty_heap
      = Fault (OutOfBounds a i) h' /\
    (a = A_matrix \/ a = A_permutations) /\
    matrix h' = [] /\ permutations h' = [].
Proof.
  apply (decks_below_two_cards_fault 1 0 empty_heap);
    unfold INT_MIN, int_half; lia.
Defined.

(** ** Sums over ranges *)

Lemma sum_range_split f lo mid hi :
  lo <= mid <= hi ->
  sum_range f lo hi = sum_range f lo mid + sum_range f mid hi.
Proof.
  intros H. unfold sum_range.
  replace (hi - lo) with ((mid - lo) + (hi - mid)) by lia.
  rewrite seqZ_app by lia. rewrite fmap_app, sum_list_app.
  replace (lo + (mid - lo)) with mid by lia. reflexivity.
Qed.

Lemma sum_range_ind (P : Z -> Z -> Prop) f lo :
  P lo 0 ->
  (forall hi acc, lo <= hi -> P hi acc -> P (hi + 1) (acc + f hi)) ->
  forall hi, lo <= hi -> P hi (sum_range f lo hi).
Proof.
  intros H0 Hstep hi Hhi.
  replace hi with (lo + Z.of_nat (Z.to_nat (hi - lo))) by lia.
  induction (Z.to_nat (hi - lo)) as [|n IH].
  - rewrite Z.add_0_r, sum_range_empty by lia. exact H0.
  - replace (lo + Z.of_nat (S n)) with (lo + Z.of_nat n + 1) by lia.
    rewrite sum_range_snoc by lia. apply Hstep; [lia|exact IH].
Qed.

Lemma sum_range_zero f lo hi :
  (forall i, lo <= i < hi -> f i = 0) -> sum_range f lo hi = 0.
Proof.
  intros H. rewrite (sum_range_ext f (fun _ => 0) lo hi H).
  unfold sum_range. induction (seqZ lo (hi - lo)) as [|x l IH];
    [reflexivity|exact IH].
Qed.

Lemma sum_range_constant c lo hi :
  lo <= hi -> sum_range (fun _ => c) lo hi = c * (hi - lo).
Proof.
  intros H.
  apply (sum_range_ind (fun hi acc => acc = c * (hi - lo)) (fun _ => c) lo);
    [lia| |exact H].
  intros hi' acc Hhi ->. lia.
Qed.

Lemma sum_range_plus f g lo hi :
  lo <= hi ->
  sum_range (fun i => f i + g i) lo hi = sum_range f lo hi + sum_range g lo hi.
Proof.
  intros H. revert hi H.
  apply (sum_range_ind
           (fun hi acc => acc = sum_range f lo hi + sum_range g lo hi)).
  - rewrite !sum_range_empty by lia. reflexivity.
  - intros hi acc Hhi ->. rewrite !sum_range_snoc by lia. lia.
Qed.

Lemma sum_range_times c f lo hi :
  lo <= hi ->
  sum_range (fun i => f i * c) lo hi = sum_range f lo hi * c.
Proof.
  intros H. revert hi H.
  apply (sum_range_ind (fun hi acc => acc = sum_range f lo hi * c)).
  - rewrite sum_range_empty by lia. reflexivity.
  - intros hi acc Hhi ->. rewrite sum_range_snoc by lia. lia.
Qed.

(** Summing a table by rows or by columns. *)
Lemma sum_range_swap (a : Z -> Z -> Z) lo1 hi1 lo2 hi2 :
  lo1 <= hi1 -> lo2 <= hi2 ->
  sum_range (fun t => sum_range (fun i => a i t) lo2 hi2) lo1 hi1
  = sum_range (fun i => sum_range (fun t => a i t) lo1 hi1) lo2 hi2.
Proof.
  intros H1 H2. revert hi1 H1.
  apply (sum_range_ind
           (fun hi1 acc =>
              acc = sum_range (fun i => sum_range (fun t => a i t) lo1 hi1)
                              lo2 hi2)).
  - symmetry. apply sum_range_zero. intros i Hi.
    apply sum_range_empty. lia.
  - intros hi1 acc Hhi ->. rewrite <- sum_range_plus by lia.
    apply sum_range_ext. intros i Hi. rewrite sum_range_snoc by lia.
    reflexivity.
Qed.

(** ** The cut points and the predictor *)

Lemma ceil_div_2_parity b :
  0 <= b ->
  if Z.even b then 2 * ceil_div b 2 = b else 2 * ceil_div b 2 = b + 1.
Proof.
  intros H. unfold ceil_div.
  pose proof (Z.div_mod (- b) 2 ltac:(lia)) as Hdiv.
  pose proof (Zmod_even (- b)) as Hmod. rewrite Z.even_opp in Hmod.
  destruct (Z.even b); lia.
Qed.

Lemma cut_points_are_the_predicted_side before t i :
  0 <= t < before -> 0 <= i <= before ->
  leads_to before i t
  = (i <? fst (cut_points before (ceil_div before 2) t))
    || (snd (cut_points before (ceil_div before 2) t) <=? i).
Proof.
  intros Ht Hi. pose proof (ceil_div_2_parity before ltac:(lia)) as Hpar.
  unfold leads_to, cut_points.
  destruct (Z.even before);
    [ destruct (Z.leb_spec t (ceil_div before 2))
    | destruct (Z.ltb_spec t (ceil_div before 2));
      [| destruct (Z.eqb_spec t (ceil_div before 2))] ];
    simpl fst; simpl snd; compare_cases; exfalso; lia.
Qed.

Lemma cut_points_ordered before t :
  0 <= t < before ->
  0 <= fst (cut_points before (ceil_div before 2) t)
    <= snd (cut_points before (ceil_div before 2) t) /\
  snd (cut_points before (ceil_div before 2) t) <= before + 1.
Proof.
  intros Ht. pose proof (ceil_div_2_bounds before ltac:(lia)) as Hlimit.
  unfold cut_points. destruct (Z.even before); compare_cases.
Qed.

(** The two ranges of the recurrence are the previous states that lead
    to [t]. *)
Lemma two_ranges_are_the_predicted_side (p : Z -> Z) before t :
  0 <= t < before ->
  sum_range p 0 (fst (cut_points before (ceil_div before 2) t))
  + sum_range p (snd (cut_points before (ceil_div before 2) t)) (before + 1)
  = sum_range (fun i => if leads_to before i t then p i else 0)
              0 (before + 1).
Proof.
  intros Ht. destruct (cut_points_ordered before t Ht) as [Hk Hl].
  set (k := fst (cut_points before (ceil_div before 2) t)) in *.
  set (l := snd (cut_points before (ceil_div before 2) t)) in *.
  rewrite (sum_range_split _ 0 k (before + 1)) by lia.
  rewrite (sum_range_split _ k l (before + 1)) by lia.
  assert (Hin : forall i, 0 <= i <= before ->
            leads_to before i t = (i <? k) || (l <=? i)).
  { intros i Hi. apply cut_points_are_the_predicted_side; assumption. }
  rewrite (sum_range_ext (fun i => if leads_to before i t then p i else 0)
             p 0 k).
  2: { intros i Hi. rewrite Hin by lia.
       assert (E : (i <? k) = true) by (apply Z.ltb_lt; lia).
       rewrite E. reflexivity. }
  rewrite (sum_range_zero (fun i => if leads_to before i t then p i else 0)
             k l).
  2: { intros i Hi. rewrite Hin by lia.
       assert (E1 : (i <? k) = false) by (apply Z.ltb_ge; lia).
       assert (E2 : (l <=? i) = false) by (apply Z.leb_gt; lia).
       rewrite E1, E2. reflexivity. }
  rewrite (sum_range_ext (fun i => if leads_to before i t then p i else 0)
             p l (before + 1)).
  2: { intros i Hi. rewrite Hin by lia.
       assert (E : (l <=? i) = true) by (apply Z.leb_le; lia).
       rewrite E. rewrite orb_true_r. reflexivity. }
  lia.
Qed.

(** From one state, the number of lower-counts a correct deal can lead
    to is the size of the predicted side. *)
Lemma predicted_side_count (p : Z) before i :
  0 <= i <= before ->
  sum_range (fun t => if leads_to before i t then p else 0) 0 before
  = p * Z.max i (before - i).
Proof.
  intros Hi. unfold leads_to.
  rewrite (sum_range_split _ 0 i before) by lia.
  destruct (before - i >=? i) eqn:E.
  - rewrite Z.geb_leb in E. apply Z.leb_le in E.
    rewrite (sum_range_zero _ 0 i).
    2: { intros t Ht. assert (E' : (i <=? t) = false) by (apply Z.leb_gt; lia).
         rewrite E'. reflexivity. }
    rewrite (sum_range_ext _ (fun _ => p) i before).
    2: { intros t Ht. assert (E' : (i <=? t) = true) by (apply Z.leb_le; lia).
         rewrite E'. reflexivity. }
    rewrite sum_range_constant by lia. rewrite Z.max_r by lia. lia.
  - rewrite Z.geb_leb in E. apply Z.leb_gt in E.
    rewrite (sum_range_ext _ (fun _ => p) 0 i).
    2: { intros t Ht. assert (E' : (t <? i) = true) by (apply Z.ltb_lt; lia).
         rewrite E'. reflexivity. }
    rewrite (sum_range_zero _ i before).
    2: { intros t Ht. assert (E' : (t <? i) = false) by (apply Z.ltb_ge; lia).
         rewrite E'. reflexivity. }
    rewrite sum_range_constant by lia. rewrite Z.max_l by lia. lia.
Qed.

(** Every path either goes on or meets one of the failing cards. *)
Lemma recurrence_conserves_paths (p : Z -> Z) before :
  0 <= before ->
  sum_range (fun t =>
               sum_range p 0 (fst (cut_points before (ceil_div before 2) t))
               + sum_range p (snd (cut_points before (ceil_div before 2) t))
                           (before + 1))
            0 before
  + sum_range (fun i => p i * Z.min i (before - i)) 0 (before + 1)
  = before * sum_range p 0 (before + 1).
Proof.
  intros Hb.
  rewrite (sum_range_ext _
             (fun t => sum_range (fun i => if leads_to before i t then p i
                                           else 0) 0 (before + 1)) 0 before).
  2: { intros t Ht. apply two_ranges_are_the_predicted_side. lia. }
  rewrite sum_range_swap by lia.
  rewrite (sum_range_ext _ (fun i => p i * Z.max i (before - i))
             0 (before + 1)).
  2: { intros i Hi. apply predicted_side_count. lia. }
  rewrite <- sum_range_plus by lia.
  rewrite (sum_range_ext _ (fun i => p i * before) 0 (before + 1)).
  2: { intros i Hi. lia. }
  rewrite sum_range_times by lia. lia.
Qed.

(** ** The table, row by row *)

Lemma entry_fmap (f : Z -> Z) n i :
  0 <= i < n -> entry (f <$> seqZ 0 n) i = f i.
Proof.
  intros Hi. unfold entry. rewrite index_lookup by lia.
  rewrite list_lookup_fmap, lookup_seqZ_lt by lia. simpl.
  f_equal. lia.
Qed.

Lemma sum_list_fmap_seqZ (f : Z -> Z) n :
  sum_list (f <$> seqZ 0 n) = sum_range f 0 n.
Proof. unfold sum_range. rewrite Z.sub_0_r. reflexivity. Qed.

(** The table [createMatrix] and [calculateMatrix] build from nothing. *)
Lemma after_matrix_table size numberLower :
  2 <= size <= INT_MAX -> 0 <= numberLower <= size ->
  exists m g,
    after_matrix size numberLower = Done tt (set_matrix m empty_heap) /\
    table_is size g m /\
    (forall t, 0 <= t < size -> g 0 t = first_row_entry size numberLower t) /\
    recurrence size g (size - 1).
Proof.
  intros Hsize Hnl.
  destruct (createMatrix_table size empty_heap Hsize)
    as (m0 & Hcreate & Hzero).
  destruct (calculateMatrix_table size numberLower (set_matrix m0 empty_heap)
              Hsize Hnl Hzero) as (m & g & Hrun & Htable & Hrow0 & Hrec).
  exists m, g. split; [|split; [exact Htable|split; [exact Hrow0|exact Hrec]]].
  unfold after_matrix. rewrite (bind_done _ _ _ _ _ Hcreate). exact Hrun.
Qed.

(** X4.  In the table of a valid query the two index ranges of the
    recurrence are the predictor's rule: the entry at stage [s >= 1] and
    lower-count [t] is the [int] sum of the entries [i] of the previous
    row from which a correctly predicted card leads to [t], that is
    [i <= t] where the predictor calls higher ([before - i >= i]) and
    [t < i] where it calls lower. *)
Theorem entries_count_the_predicted_side (size numberLower s t : Z) :
  2 <= size <= INT_MAX -> 0 <= numberLower <= size ->
  1 <= s <= size - 2 -> 0 <= t <= size - s - 1 ->
  exists previous row,
    index (matrix (final (after_matrix size numberLower))) (s - 1)
      = Some previous /\
    index (matrix (final (after_matrix size numberLower))) s = Some row /\
    recurrence_total size previous s t
      = predicted_paths (size - s) t previous /\
    index row t = Some (wrap int_half (predicted_paths (size - s) t previous)).
Proof.
  intros Hsize Hnl Hs Ht.
  destruct (after_matrix_table size numberLower Hsize Hnl)
    as (m & g & Hafter & Htable & _ & Hrec).
  pose proof (table_row size g m (s - 1) Htable ltac:(lia)) as Hprevious.
  pose proof (table_row size g m s Htable ltac:(lia)) as Hrow.
  destruct (cut_points_ordered (size - s) t ltac:(lia)) as [Hk Hl].
  rewrite Hafter. simpl final. simpl matrix.
  eexists _, _. split; [exact Hprevious|]. split; [exact Hrow|].
  replace (size - (s - 1)) with (size - s + 1) by lia.
  assert (Hsum : recurrence_total size (g (s - 1) <$> seqZ 0 (size - s + 1)) s t
                 = predicted_paths (size - s) t
                     (g (s - 1) <$> seqZ 0 (size - s + 1))).
  { unfold recurrence_total, predicted_paths. cbv zeta.
    rewrite !sum_between_fmap by lia.
    rewrite two_ranges_are_the_predicted_side by lia.
    apply sum_range_ext. intros i Hi.
    rewrite entry_fmap by lia. reflexivity. }
  split; [exact Hsum|].
  rewrite index_lookup by lia. rewrite list_lookup_fmap.
  rewrite lookup_seqZ_lt by lia. simpl. f_equal.
  rewrite Z2Nat.id by lia. rewrite Z.add_0_l.
  rewrite (Hrec s t) by lia. unfold next_entry. cbv zeta.
  rewrite <- Hsum. unfold recurrence_total. cbv zeta.
  rewrite !sum_between_fmap by lia. reflexivity.
Qed.

Lemma entries_count_the_predicted_side_witness :
  exists previous row,
    index (matrix (final (after_matrix 5 2))) (2 - 1) = Some previous /\
    index (matrix (final (after_matrix 5 2))) 2 = Some row /\
    recurrence_total 5 previous 2 1 = predicted_paths (5 - 2) 1 previous /\
    index row 1 = Some (wrap int_half (predicted_paths (5 - 2) 1 previous)).
Proof.
  apply (entries_count_the_predicted_side 5 2 2 1);
    unfold INT_MAX, int_half; lia.
Defined.

(** X5.  Where the sums of the table fit in an [int] (as they do up to
    thirteen cards), no path is lost between two rows: for every stage
    [s >= 1], with [before = size - s] cards left, the total of row [s]
    plus the paths of row [s - 1] weighted by their failing cards
    ([min i (before - i)] for entry [i], the count of
    [numberFailingCards]) is [before] times the total of row [s - 1]. *)
Theorem paths_go_on_or_fail (size numberLower s : Z) :
  2 <= size <= INT_MAX -> 0 <= numberLower <= size ->
  totals_fit size (matrix (final (after_matrix size numberLower))) ->
  1 <= s <= size - 2 ->
  exists previous row,
    index (matrix (final (after_matrix size numberLower))) (s - 1)
      = Some previous /\
    index (matrix (final (after_matrix size numberLower))) s = Some row /\
    sum_list row + failing_paths (size - s) previous
      = (size - s) * sum_list previous.
Proof.
  intros Hsize Hnl Hfit Hs.
  destruct (after_matrix_table size numberLower Hsize Hnl)
    as (m & g & Hafter & Htable & _ & Hrec).
  pose proof (table_row size g m (s - 1) Htable ltac:(lia)) as Hprevious.
  pose proof (table_row size g m s Htable ltac:(lia)) as Hrow.
  rewrite Hafter in Hfit |- *. simpl final in *. simpl matrix in *.
  eexists _, _. split; [exact Hprevious|]. split; [exact Hrow|].
  unfold totals_fit in Hfit. rewrite Forall_seqZ in Hfit.
  specialize (Hfit s ltac:(lia)). rewrite Forall_seqZ in Hfit.
  rewrite Hprevious in Hfit. simpl default in Hfit.
  replace (size - (s - 1)) with (size - s + 1) in * by lia.
  rewrite !sum_list_fmap_seqZ.
  rewrite <- (recurrence_conserves_paths (g (s - 1)) (size - s)) by lia.
  f_equal.
  - apply sum_range_ext. intros t Ht.
    rewrite (Hrec s t) by lia. unfold next_entry. cbv zeta.
    specialize (Hfit t ltac:(lia)).
    destruct (cut_points_ordered (size - s) t ltac:(lia)) as [Hk Hl].
    unfold recurrence_total in Hfit. cbv zeta in Hfit.
    rewrite !sum_between_fmap in Hfit by lia.
    apply wrap_fits, Hfit.
  - unfold failing_paths. apply sum_range_ext. intros i Hi.
    rewrite entry_fmap by lia. reflexivity.
Qed.

Lemma paths_go_on_or_fail_witness :
  exists previous row,
    index (matrix (final (after_matrix 5 2))) (2 - 1) = Some previous /\
    index (matrix (final (after_matrix 5 2))) 2 = Some row /\
    sum_list row + failing_paths (5 - 2) previous = (5 - 2) * sum_list previous.
Proof.
  apply (paths_go_on_or_fail 5 2 2);
    [unfold INT_MAX, int_half; lia | lia
    | apply totals_fit_up_to_13; lia | lia].
Defined.

Lemma first_row_total size numberLower :
  0 <= numberLower <= size ->
  sum_range (first_row_entry size numberLower) 0 size
  = Z.max numberLower (size - numberLower).
Proof.
  intros Hnl. unfold first_row_entry.
  destruct (size - numberLower >=? numberLower) eqn:E;
    rewrite Z.geb_leb in E; [apply Z.leb_le in E | apply Z.leb_gt in E].
  - rewrite (sum_range_split _ 0 numberLower size) by lia.
    rewrite (sum_range_zero _ 0 numberLower).
    2: { intros i Hi.
         assert (E' : (numberLower <=? i) = false) by (apply Z.leb_gt; lia).
         rewrite E'. reflexivity. }
    rewrite (sum_range_ext _ (fun _ => 1) numberLower size).
    2: { intros i Hi.
         assert (E1 : (numberLower <=? i) = true) by (apply Z.leb_le; lia).
         assert (E2 : (i <=? size - 1) = true) by (apply Z.leb_le; lia).
         rewrite E1, E2. reflexivity. }
    rewrite sum_range_constant by lia. lia.
  - rewrite (sum_range_split _ 0 numberLower size) by lia.
    rewrite (sum_range_ext _ (fun _ => 1) 0 numberLower).
    2: { intros i Hi.
         assert (E1 : (0 <=? i) = true) by (apply Z.leb_le; lia).
         assert (E2 : (i <=? numberLower - 1) = true) by (apply Z.leb_le; lia).
         rewrite E1, E2. reflexivity. }
    rewrite (sum_range_zero _ numberLower size).
    2: { intros i Hi.
         assert (E' : (i <=? numberLower - 1) = false) by (apply Z.leb_gt; lia).
         rewrite E'. rewrite andb_false_r. reflexivity. }
    rewrite sum_range_constant by lia. lia.
Qed.

(** X6.  For a valid query row 0 of the table sums to
    [max numberLower (size - numberLower)], the number of cards on the
    side the first prediction calls; so the probability that the first
    prediction is correct is that number over [size]. *)
Theorem first_row_counts_the_predicted_cards (size numberLower : Z) :
  2 <= size <= INT_MAX -> 0 <= numberLower <= size ->
  exists row,
    index (matrix (final (after_matrix size numberLower))) 0 = Some row /\
    sum_list row = Z.max numberLower (size - numberLower) /\
    (first_prediction_probability
       (matrix (final (after_matrix size numberLower))) size
     == Z.max numberLower (size - numberLower) # Z.to_pos size)%Q.
Proof.
  intros Hsize Hnl.
  destruct (after_matrix_table size numberLower Hsize Hnl)
    as (m & g & Hafter & Htable & Hrow0 & _).
  pose proof (table_row size g m 0 Htable ltac:(lia)) as Hrow.
  rewrite Hafter. simpl final. simpl matrix.
  assert (Hsum : sum_list (g 0 <$> seqZ 0 (size - 0))
                 = Z.max numberLower (size - numberLower)).
  { rewrite Z.sub_0_r, sum_list_fmap_seqZ.
    rewrite (sum_range_ext _ (first_row_entry size numberLower) 0 size)
      by (intros t Ht; apply Hrow0; lia).
    apply first_row_total, Hnl. }
  eexists. split; [exact Hrow|]. split; [exact Hsum|].
  unfold first_prediction_probability.
  rewrite index_lookup in Hrow by lia.
  change (Z.to_nat 0) with 0%nat in Hrow.
  rewrite head_lookup, Hrow. simpl default. rewrite Hsum. reflexivity.
Qed.

Lemma first_row_counts_the_predicted_cards_witness :
  exists row,
    index (matrix (final (after_matrix 13 4))) 0 = Some row /\
    sum_list row = Z.max 4 (13 - 4) /\
    (first_prediction_probability (matrix (final (after_matrix 13 4))) 13
     == Z.max 4 (13 - 4) # Z.to_pos 13)%Q.
Proof.
  apply (first_row_counts_the_predicted_cards 13 4);
    unfold INT_MAX, int_half; lia.
Defined.

(** ** The permutation table *)

Lemma int_done mode x h : INT_MIN <= x <= INT_MAX -> int_ mode x h = Done x h.
Proof.
  intros H. pose proof (fits_int x H) as Hfits.
  destruct mode; unfold int_, ret.
  - rewrite wrap_fits by exact Hfits. reflexivity.
  - rewrite Hfits. reflexivity.
Qed.

Lemma long_done mode x h :
  - long_half <= x < long_half -> long_ mode x h = Done x h.
Proof.
  intros H.
  assert (Hfits : fits long_half x = true).
  { unfold fits. apply andb_true_intro.
    split; [apply Z.leb_le | apply Z.ltb_lt]; lia. }
  destruct mode; unfold long_, ret.
  - rewrite wrap_fits by exact Hfits. reflexivity.
  - rewrite Hfits. reflexivity.
Qed.

(** A list is given by its length and its cells. *)
Lemma cells_determine {A} (f : Z -> A) n (l : list A) :
  Z.of_nat (length l) = n ->
  (forall i, 0 <= i < n -> index l i = Some (f i)) ->
  l = f <$> seqZ 0 n.
Proof.
  intros Hlen Hcells. apply list_eq. intros i.
  destruct (decide (Z.of_nat i < n)) as [Hi|Hi].
  - specialize (Hcells (Z.of_nat i) ltac:(lia)).
    rewrite index_lookup, Nat2Z.id in Hcells by lia. rewrite Hcells.
    rewrite list_lookup_fmap, lookup_seqZ_lt by lia. reflexivity.
  - rewrite !lookup_ge_None_2; [reflexivity| |].
    + rewrite length_fmap, length_seqZ. lia.
    + lia.
Qed.

Lemma index_cells {A} (f : Z -> A) n i :
  0 <= i < n -> index (f <$> seqZ 0 n) i = Some (f i).
Proof.
  intros Hi. rewrite index_lookup by lia.
  rewrite list_lookup_fmap, lookup_seqZ_lt by lia. simpl.
  do 2 f_equal. lia.
Qed.

Lemma set_permutations_frame p p' h1 h :
  h1 = set_permutations p h -> set_permutations p' h1 = set_permutations p' h.
Proof. intros ->. reflexivity. Qed.

(** Up to twenty cards every count of deals fits in a [long]. *)
Lemma arrangements_fit size n :
  0 <= size <= 20 -> 0 <= n <= size ->
  0 < arrangements size (Z.to_nat n) < long_half.
Proof.
  apply (on_inputs 0 20 (fun s n => arrangements s (Z.to_nat n))
           (fun x => 0 < x < long_half)).
  vm_cast_no_check (eq_refl true).
Qed.

Lemma arrangements_next size i :
  0 <= i ->
  arrangements size (Z.to_nat (i + 1))
  = arrangements size (Z.to_nat i) * (size - i).
Proof.
  intros Hi. replace (Z.to_nat (i + 1)) with (S (Z.to_nat i)) by lia.
  simpl. rewrite Z2Nat.id by lia. reflexivity.
Qed.

(** X7.  For [3 <= size <= 20], with or without overflow checks, and a
    permutation table of [size - 2] cells, [calculatePermutations] fills
    cell [i] with [size * (size - 1) * ... * (size - i - 1)], the number
    of ways to deal [i + 2] cards in order, and [getNumberShuffles] then
    returns the number of ways to deal the whole deck, [size!]. *)
Theorem calculatePermutations_counts_the_deals
    (mode : arith) (size : Z) (h : heap) :
  3 <= size <= 20 -> Z.of_nat (length (permutations h)) = size - 2 ->
  let table := (fun i => arrangements size (Z.to_nat (i + 2)))
                 <$> seqZ 0 (size - 2) in
  calculatePermutations mode size h = Done tt (set_permutations table h) /\
  getNumberShuffles mode size (set_permutations table h)
    = Done (arrangements size (Z.to_nat size)) (set_permutations table h).
Proof.
  intros Hsize Hlen table.
  assert (Hlast : arrangements size (Z.to_nat (size - 3 + 2))
                  = arrangements size (Z.to_nat size)).
  { replace (size - 3 + 2) with (size - 1) by lia.
    transitivity (arrangements size (Z.to_nat (size - 1))
                  * (size - (size - 1))); [lia|].
    rewrite <- arrangements_next by lia. do 2 f_equal. lia. }
  split.
  - unfold calculatePermutations, getLengthOfPermutations.
    rewrite (bind_done _ _ _ _ _ (int_done mode (size - 2) h ltac:(int_range))).
    assert (E : (size >? 0) = true) by (apply Z.gtb_lt; lia). rewrite E.
    rewrite (bind_done _ _ _ _ _ (int_done mode (size - 1) h ltac:(int_range))).
    assert (Hfirst : INT_MIN <= size * (size - 1) <= INT_MAX)
      by (unfold INT_MIN, INT_MAX, int_half; nia).
    rewrite (bind_done _ _ _ _ _
               (int_done mode (size * (size - 1)) h Hfirst)).
    assert (Hstore : store_permutations 0 (size * (size - 1)) h
                     = Done tt (set_permutations
                                  (<[0%nat := size * (size - 1)]>
                                     (permutations h))
                                  h)).
    { unfold store_permutations. rewrite update_in_range by lia. reflexivity. }
    rewrite (bind_done _ _ _ _ _ Hstore).
    destruct (for_rule
      (fun i h1 =>
         h1 = set_permutations (permutations h1) h /\
         Z.of_nat (length (permutations h1)) = size - 2 /\
         forall j, 0 <= j < i ->
           index (permutations h1) j
           = Some (arrangements size (Z.to_nat (j + 2))))
      (fun i =>
         before <- int_ mode (i - 1) ;;
         previous <- load_permutations before ;;
         left <- int_ mode (size - i) ;;
         factor <- int_ mode (left - 1) ;;
         next <- long_ mode (previous * factor) ;;
         store_permutations i next)
      1 (size - 2)
      (set_permutations (<[0%nat := size * (size - 1)]> (permutations h)) h))
      as (h' & Hrun & Hframe & Hlen' & Hcells).
    + lia.
    + split; [reflexivity|]. simpl permutations. split.
      * rewrite length_insert. exact Hlen.
      * intros j Hj. assert (j = 0) as -> by lia.
        rewrite (index_insert _ 0 0) by lia. simpl. f_equal. lia.
    + intros i h1 Hi (Hframe & Hlen1 & Hcells).
      rewrite (bind_done _ _ _ _ _ (int_done mode (i - 1) h1 ltac:(int_range))).
      assert (Hload : load_permutations (i - 1) h1
                      = Done (arrangements size (Z.to_nat (i - 1 + 2))) h1).
      { unfold load_permutations. rewrite Hcells by lia. reflexivity. }
      rewrite (bind_done _ _ _ _ _ Hload).
      rewrite (bind_done _ _ _ _ _
                 (int_done mode (size - i) h1 ltac:(int_range))).
      rewrite (bind_done _ _ _ _ _
                 (int_done mode (size - i - 1) h1 ltac:(int_range))).
      assert (Hnext : arrangements size (Z.to_nat (i - 1 + 2)) * (size - i - 1)
                      = arrangements size (Z.to_nat (i + 2))).
      { replace (i + 2) with (i + 1 + 1) by lia.
        rewrite (arrangements_next size (i + 1)) by lia.
        replace (i - 1 + 2) with (i + 1) by lia. f_equal. lia. }
      rewrite Hnext.
      pose proof (arrangements_fit size (i + 2) ltac:(lia) ltac:(lia)) as Hfit.
      rewrite (bind_done _ _ _ _ _
                 (long_done mode (arrangements size (Z.to_nat (i + 2))) h1
                    ltac:(unfold long_half in *; lia))).
      unfold store_permutations. rewrite update_in_range by lia.
      eexists. split; [reflexivity|]. simpl permutations. split.
      * eapply set_permutations_frame, Hframe.
      * split; [rewrite length_insert; exact Hlen1|].
        intros j Hj. rewrite index_insert by lia.
        destruct (i =? j) eqn:Eij;
          [apply Z.eqb_eq in Eij; subst j; reflexivity
          |apply Z.eqb_neq in Eij; apply Hcells; lia].
    + rewrite Hrun. f_equal. rewrite Hframe. f_equal.
      apply cells_determine; assumption.
  - unfold getNumberShuffles, getLengthOfPermutations.
    rewrite (bind_done _ _ _ _ _
               (int_done mode (size - 2) _ ltac:(int_range))).
    rewrite (bind_done _ _ _ _ _
               (int_done mode (size - 2 - 1) _ ltac:(int_range))).
    unfold load_permutations. simpl permutations.
    unfold table. rewrite index_cells by lia.
    replace (size - 2 - 1) with (size - 3) by lia.
    rewrite Hlast. reflexivity.
Qed.

Lemma calculatePermutations_counts_the_deals_witness :
  let table := (fun i => arrangements 5 (Z.to_nat (i + 2)))
                 <$> seqZ 0 (5 - 2) in
  calculatePermutations Wrap 5 (set_permutations [0; 0; 0] empty_heap)
    = Done tt (set_permutations table
                 (set_permutations [0; 0; 0] empty_heap)) /\
  getNumberShuffles Wrap 5
      (set_permutations table (set_permutations [0; 0; 0] empty_heap))
    = Done (arrangements 5 (Z.to_nat 5))
        (set_permutations table (set_permutations [0; 0; 0] empty_heap)).
Proof.
  apply (calculatePermutations_counts_the_deals
           Wrap 5 (set_permutations [0; 0; 0] empty_heap));
    [lia | reflexivity].
Defined.

(** ** Accumulation *)







Lemma bind_bind {A B C} (c : M A) (k : A -> M B) (k' : B -> M C) h :
  bind (bind c k) k' h = bind c (fun a => bind (k a) k') h.
Proof. unfold bind. destruct (c h); reflexivity. Qed.




(** ** The exported pairs *)

Lemma exported_exact z : 0 <= z < ulong_range -> exported z = z.
Proof.
  intros H. unfold exported, uwrap, ufits. rewrite Z.abs_eq by lia.
  assert (E1 : (0 <=? z) = true) by (apply Z.leb_le; lia).
  assert (E2 : (z <? ulong_range) = true) by (apply Z.ltb_lt; lia).
  rewrite E1, E2. reflexivity.
Qed.

Lemma exported_range z : 0 <= exported z < ulong_range.
Proof.
  unfold exported, uwrap, ufits.
  destruct ((0 <=? Z.abs z) && (Z.abs z <? ulong_range)) eqn:E.
  - apply andb_prop in E as [E1 E2].
    apply Z.leb_le in E1. apply Z.ltb_lt in E2. lia.
  - apply Z.mod_pos_bound. reflexivity.
Qed.

(** Overwriting cell [n] of a buffer whose first [n] cells were
    overwritten before. *)
Lemma overwrite_step {A B} (f : A -> B) (p : list A) (buf : list B)
    (n : nat) q :
  p !! n = Some q -> (n < length buf)%nat ->
  <[n := f q]> ((f <$> take n p) ++ drop n buf)
  = (f <$> take (S n) p) ++ drop (S n) buf.
Proof.
  intros Hq Hn.
  assert (Hlen : length (f <$> take n p) = n).
  { rewrite length_fmap, length_take. apply lookup_lt_Some in Hq. lia. }
  destruct (lookup_lt_is_Some_2 buf n Hn) as [b Hb].
  rewrite insert_app_r_alt by lia. rewrite Hlen, Nat.sub_diag.
  rewrite (drop_S buf b n Hb). simpl.
  rewrite (take_S_r p n q Hq), fmap_app, <- app_assoc. reflexivity.
Qed.

(** X9.  With [size - 1] probabilities and result buffers of at least
    [size - 1] cells, [convertToNumeratorsAndDenominators] runs without
    a fault; it overwrites the first [size - 1] cells of each buffer
    with what [mpz_get_ui] makes of the numerators and denominators (the
    low 64 bits of the absolute value: a sign is dropped) and leaves
    every later cell of the buffers as it was. *)
Theorem convert_exports_magnitudes_and_keeps_the_rest (size : Z) (h : heap) :
  1 <= size <= INT_MAX ->
  Z.of_nat (length (probabilities h)) = size - 1 ->
  size - 1 <= Z.of_nat (length (numeratorsResult h)) ->
  size - 1 <= Z.of_nat (length (denominatorsResult h)) ->
  let kept := Z.to_nat (size - 1) in
  convertToNumeratorsAndDenominators Wrap size h
  = Done tt
      (set_denominatorsResult
         (((fun q => exported (mpq_denref q)) <$> probabilities h)
          ++ drop kept (denominatorsResult h))
         (set_numeratorsResult
            (((fun q => exported (mpq_numref q)) <$> probabilities h)
             ++ drop kept (numeratorsResult h))
            h)).
Proof.
  intros Hsize Hlen Hnum Hden kept.
  unfold convertToNumeratorsAndDenominators, getLengthOfProbabilities.
  rewrite (bind_done _ _ _ _ _ (int_exact (size - 1) h ltac:(int_range))).
  set (after := fun n : nat =>
         set_denominatorsResult
           (((fun q => exported (mpq_denref q)) <$> take n (probabilities h))
            ++ drop n (denominatorsResult h))
           (set_numeratorsResult
              (((fun q => exported (mpq_numref q)) <$> take n (probabilities h))
               ++ drop n (numeratorsResult h))
              h)).
  destruct (for_rule
    (fun i h1 => h1 = after (Z.to_nat i))
    (fun i =>
       q <- load_probabilities i ;;
       numerator <- mpz_get_ui Wrap (mpq_numref q) ;;
       denominator <- mpz_get_ui Wrap (mpq_denref q) ;;
       store_numeratorsResult i numerator ;;
       store_denominatorsResult i denominator)
    0 (size - 1) h) as (h' & Hrun & ->).
  - lia.
  - unfold after. simpl. rewrite !drop_0. destruct h; reflexivity.
  - intros i h1 Hi ->.
    destruct (lookup_lt_is_Some_2 (probabilities h) (Z.to_nat i) ltac:(lia))
      as [q Hq].
    assert (Hload : load_probabilities i (after (Z.to_nat i))
                    = Done q (after (Z.to_nat i))).
    { unfold load_probabilities. simpl probabilities.
      rewrite index_lookup by lia. rewrite Hq. reflexivity. }
    rewrite (bind_done _ _ _ _ _ Hload).
    unfold mpz_get_ui. unfold bind at 1, ret at 1. unfold bind at 1, ret at 1.
    fold (exported (mpq_numref q)). fold (exported (mpq_denref q)).
    eexists. split; [|reflexivity].
    unfold bind, store_numeratorsResult, store_denominatorsResult.
    simpl numeratorsResult.
    rewrite update_in_range.
    2: { rewrite length_app, length_fmap, length_take, length_drop. lia. }
    simpl denominatorsResult.
    rewrite update_in_range.
    2: { rewrite length_app, length_fmap, length_take, length_drop. lia. }
    rewrite (overwrite_step (fun q => exported (mpq_numref q))
               _ _ _ q Hq) by lia.
    rewrite (overwrite_step (fun q => exported (mpq_denref q))
               _ _ _ q Hq) by lia.
    replace (Z.to_nat (i + 1)) with (S (Z.to_nat i)) by lia.
    reflexivity.
  - rewrite Hrun. unfold after. fold kept.
    rewrite (take_ge (probabilities h) kept) by (unfold kept; lia).
    reflexivity.
Qed.

Lemma convert_exports_magnitudes_and_keeps_the_rest_witness :
  let h := Heap [] [Mpq 2 3; Mpq (-1) 2] [] [7; 7; 7] [9; 9; 9] in
  let kept := Z.to_nat (3 - 1) in
  convertToNumeratorsAndDenominators Wrap 3 h
  = Done tt
      (set_denominatorsResult
         (((fun q => exported (mpq_denref q)) <$> probabilities h)
          ++ drop kept (denominatorsResult h))
         (set_numeratorsResult
            (((fun q => exported (mpq_numref q)) <$> probabilities h)
             ++ drop kept (numeratorsResult h))
            h)).
Proof.
  apply (convert_exports_magnitudes_and_keeps_the_rest
           3 (Heap [] [Mpq 2 3; Mpq (-1) 2] [] [7; 7; 7] [9; 9; 9]));
    [unfold INT_MAX, int_half; lia | reflexivity | simpl; lia | simpl; lia].
Defined.

(** ** Checked and machine arithmetic *)

Create HintDb agree.

Lemma agrees_refl {A} (c : M A) : agrees c c.
Proof. intros h _. reflexivity. Qed.

Lemma agrees_bind {A B} (c1 c2 : M A) (k1 k2 : A -> M B) :
  agrees c1 c2 -> (forall a, agrees (k1 a) (k2 a)) ->
  agrees (bind c1 k1) (bind c2 k2).
Proof.
  intros Hc Hk h. unfold bind. specialize (Hc h).
  destruct (c1 h) as [a h1|f h1] eqn:E.
  - intros Hno. rewrite Hc by (simpl; discriminate). apply Hk, Hno.
  - intros Hno. rewrite Hc by exact Hno. reflexivity.
Qed.

Lemma agrees_if {A} (b : bool) (c1 c2 d1 d2 : M A) :
  agrees c1 c2 -> agrees d1 d2 ->
  agrees (if b then c1 else d1) (if b then c2 else d2).
Proof. destruct b; trivial. Qed.

Lemma agrees_iterate {St} (b1 b2 : Z -> St -> M St) :
  (forall i s, agrees (b1 i s) (b2 i s)) ->
  forall n i s, agrees (iterate n i b1 s) (iterate n i b2 s).
Proof.
  intros Hb. induction n as [|n IH]; intros i s; simpl.
  - apply agrees_refl.
  - apply agrees_bind; [apply Hb|]. intros s'. apply IH.
Qed.

Lemma agrees_for_acc {St} (b1 b2 : Z -> St -> M St) lo hi s :
  (forall i s, agrees (b1 i s) (b2 i s)) ->
  agrees (for_acc lo hi b1 s) (for_acc lo hi b2 s).
Proof. intros Hb. apply agrees_iterate, Hb. Qed.

Lemma agrees_for (b1 b2 : Z -> M unit) lo hi :
  (forall i, agrees (b1 i) (b2 i)) ->
  agrees (for_ lo hi b1) (for_ lo hi b2).
Proof. intros Hb. apply agrees_for_acc. intros i _. apply Hb. Qed.

Lemma agrees_iterate_down {St} (b1 b2 : Z -> St -> M St) :
  (forall i s, agrees (b1 i s) (b2 i s)) ->
  forall n s, agrees (iterate_down n b1 s) (iterate_down n b2 s).
Proof.
  intros Hb. induction n as [|n IH]; intros s; simpl.
  - apply agrees_refl.
  - apply agrees_bind; [apply Hb|]. intros s'. apply IH.
Qed.

Lemma agrees_for_down {St} (b1 b2 : Z -> St -> M St) hi s :
  (forall i s, agrees (b1 i s) (b2 i s)) ->
  agrees (for_down hi b1 s) (for_down hi b2 s).
Proof. intros Hb. apply agrees_iterate_down, Hb. Qed.

Lemma agrees_int x : agrees (int_ Trap x) (int_ Wrap x).
Proof.
  intros h. unfold int_. destruct (fits int_half x) eqn:E.
  - intros _. rewrite wrap_fits by exact E. reflexivity.
  - intros H. exfalso. apply H. reflexivity.
Qed.

Lemma agrees_long x : agrees (long_ Trap x) (long_ Wrap x).
Proof.
  intros h. unfold long_. destruct (fits long_half x) eqn:E.
  - intros _. rewrite wrap_fits by exact E. reflexivity.
  - intros H. exfalso. apply H. reflexivity.
Qed.

Lemma agrees_ulong x : agrees (ulong_ Trap x) (ulong_ Wrap x).
Proof.
  intros h. unfold ulong_, uwrap. destruct (ufits ulong_range x) eqn:E.
  - intros _. reflexivity.
  - intros H. exfalso. apply H. reflexivity.
Qed.

Lemma agrees_mpz_get_ui z : agrees (mpz_get_ui Trap z) (mpz_get_ui Wrap z).
Proof.
  intros h. unfold mpz_get_ui, uwrap. destruct (ufits ulong_range z) eqn:E.
  - intros _. unfold ufits in E. apply andb_prop in E as [E1 E2].
    apply Z.leb_le in E1. rewrite Z.abs_eq by exact E1.
    unfold ufits. rewrite E2. apply Z.leb_le in E1. rewrite E1. reflexivity.
  - intros H. exfalso. apply H. reflexivity.
Qed.

#[local] Hint Resolve agrees_bind agrees_if agrees_for_acc agrees_for
  agrees_for_down agrees_int agrees_long agrees_ulong agrees_mpz_get_ui
  : agree.
#[local] Hint Resolve agrees_refl | 10 : agree.

Ltac agree := cbv zeta; auto 30 with agree.

Lemma createMatrix_agrees size :
  agrees (createMatrix Trap size) (createMatrix Wrap size).
Proof. unfold createMatrix. agree. Qed.

Lemma getLengthOfProbabilities_agrees size :
  agrees (getLengthOfProbabilities Trap size)
         (getLengthOfProbabilities Wrap size).
Proof. unfold getLengthOfProbabilities. agree. Qed.

#[local] Hint Resolve createMatrix_agrees getLengthOfProbabilities_agrees
  : agree.

Lemma createProbabilities_agrees size :
  agrees (createProbabilities Trap size) (createProbabilities Wrap size).
Proof. unfold createProbabilities. agree. Qed.

Lemma createProbabilitiesResult_agrees size :
  agrees (createProbabilitiesResult Trap size)
         (createProbabilitiesResult Wrap size).
Proof. unfold createProbabilitiesResult. agree. Qed.

Lemma getLengthOfPermutations_agrees size :
  agrees (getLengthOfPermutations Trap size)
         (getLengthOfPermutations Wrap size).
Proof. unfold getLengthOfPermutations. agree. Qed.

#[local] Hint Resolve createProbabilities_agrees
  createProbabilitiesResult_agrees getLengthOfPermutations_agrees : agree.

Lemma createPermutations_agrees size :
  agrees (createPermutations Trap size) (createPermutations Wrap size).
Proof. unfold createPermutations. agree. Qed.

Lemma initialiseFirstStage_agrees size numberLower :
  agrees (initialiseFirstStage Trap size numberLower)
         (initialiseFirstStage Wrap size numberLower).
Proof. unfold initialiseFirstStage. agree. Qed.

Lemma getNumberCardsLeftAfterDealing_agrees size stage :
  agrees (getNumberCardsLeftAfterDealing Trap size stage)
         (getNumberCardsLeftAfterDealing Wrap size stage).
Proof. unfold getNumberCardsLeftAfterDealing. agree. Qed.

#[local] Hint Resolve createPermutations_agrees initialiseFirstStage_agrees
  getNumberCardsLeftAfterDealing_agrees : agree.

Lemma getNumberPathsLeadingTo_agrees size stage numberLower :
  agrees (getNumberPathsLeadingTo Trap size stage numberLower)
         (getNumberPathsLeadingTo Wrap size stage numberLower).
Proof. unfold getNumberPathsLeadingTo. agree. Qed.

#[local] Hint Resolve getNumberPathsLeadingTo_agrees : agree.

Lemma initialiseStage_agrees size stage :
  agrees (initialiseStage Trap size stage) (initialiseStage Wrap size stage).
Proof. unfold initialiseStage. agree. Qed.

#[local] Hint Resolve initialiseStage_agrees : agree.

Lemma calculateMatrix_agrees size numberPlayable :
  agrees (calculateMatrix Trap size numberPlayable)
         (calculateMatrix Wrap size numberPlayable).
Proof. unfold calculateMatrix. agree. Qed.

Lemma getNumberShuffles_agrees size :
  agrees (getNumberShuffles Trap size) (getNumberShuffles Wrap size).
Proof. unfold getNumberShuffles. agree. Qed.

Lemma calculatePermutations_agrees size :
  agrees (calculatePermutations Trap size) (calculatePermutations Wrap size).
Proof. unfold calculatePermutations. agree. Qed.

Lemma numberFailingCards_agrees numberCardsLeft numberLower :
  agrees (numberFailingCards Trap numberCardsLeft numberLower)
         (numberFailingCards Wrap numberCardsLeft numberLower).
Proof. unfold numberFailingCards. agree. Qed.

Lemma mpq_set_si_agrees n op1 op2 :
  agrees (mpq_set_si Trap n op1 op2) (mpq_set_si Wrap n op1 op2).
Proof. unfold mpq_set_si. agree. Qed.

#[local] Hint Resolve calculateMatrix_agrees getNumberShuffles_agrees
  calculatePermutations_agrees numberFailingCards_agrees mpq_set_si_agrees
  : agree.

Lemma calculateInitialProbabilities_agrees size :
  agrees (calculateInitialProbabilities Trap size)
         (calculateInitialProbabilities Wrap size).
Proof. unfold calculateInitialProbabilities. agree. Qed.

Lemma calculateFinalProbability_agrees size :
  agrees (calculateFinalProbability Trap size)
         (calculateFinalProbability Wrap size).
Proof. unfold calculateFinalProbability. agree. Qed.

#[local] Hint Resolve calculateInitialProbabilities_agrees
  calculateFinalProbability_agrees : agree.

Lemma calculateInternalProbabilities_agrees size :
  agrees (calculateInternalProbabilities Trap size)
         (calculateInternalProbabilities Wrap size).
Proof. unfold calculateInternalProbabilities. agree. Qed.

Lemma accumulateProbabilities_agrees size :
  agrees (accumulateProbabilities Trap size)
         (accumulateProbabilities Wrap size).
Proof. unfold accumulateProbabilities. agree. Qed.

Lemma convertToNumeratorsAndDenominators_agrees size :
  agrees (convertToNumeratorsAndDenominators Trap size)
         (convertToNumeratorsAndDenominators Wrap size).
Proof. unfold convertToNumeratorsAndDenominators. agree. Qed.

Lemma freeProbabilities_agrees size :
  agrees (freeProbabilities Trap size) (freeProbabilities Wrap size).
Proof. unfold freeProbabilities. agree. Qed.

#[local] Hint Resolve calculateInternalProbabilities_agrees
  accumulateProbabilities_agrees convertToNumeratorsAndDenominators_agrees
  freeProbabilities_agrees : agree.

Lemma calculateProbabilities_agrees size numberLower :
  agrees (calculateProbabilities Trap size numberLower)
         (calculateProbabilities Wrap size numberLower).
Proof. unfold calculateProbabilities. agree. Qed.

#[local] Hint Resolve calculateProbabilities_agrees : agree.



(** ** A round of [main] and the rounds before it *)

Lemma related_ret {A} R (a : A) : related R R (ret a).
Proof. intros h1 h2 H. simpl. split; [reflexivity|exact H]. Qed.

Lemma related_raise {A} R R' f : related R R' (raise f : M A).
Proof. intros h1 h2 H. reflexivity. Qed.

Lemma related_bind {A B} R R' R'' (c : M A) (k : A -> M B) :
  related R R' c -> (forall a, related R' R'' (k a)) ->
  related R R'' (bind c k).
Proof.
  intros Hc Hk h1 h2 H. specialize (Hc h1 h2 H). unfold bind.
  destruct (c h1) as [a1 h1'|f1 h1'], (c h2) as [a2 h2'|f2 h2'];
    try contradiction.
  - destruct Hc as [<- H']. apply Hk, H'.
  - exact Hc.
Qed.

Lemma related_if {A} R R' (b : bool) (c d : M A) :
  related R R' c -> related R R' d -> related R R' (if b then c else d).
Proof. destruct b; trivial. Qed.

Lemma related_iterate {St} R (b : Z -> St -> M St) :
  (forall i s, related R R (b i s)) ->
  forall n i s, related R R (iterate n i b s).
Proof.
  intros Hb. induction n as [|n IH]; intros i s; simpl.
  - apply related_ret.
  - eapply related_bind; [apply Hb|]. intros s'. apply IH.
Qed.

Lemma related_for_acc {St} R (b : Z -> St -> M St) lo hi s :
  (forall i s, related R R (b i s)) -> related R R (for_acc lo hi b s).
Proof. intros Hb. apply related_iterate, Hb. Qed.

Lemma related_for R (b : Z -> M unit) lo hi :
  (forall i, related R R (b i)) -> related R R (for_ lo hi b).
Proof. intros Hb. apply related_for_acc. intros i _. apply Hb. Qed.

Lemma related_iterate_down {St} R (b : Z -> St -> M St) :
  (forall i s, related R R (b i s)) ->
  forall n s, related R R (iterate_down n b s).
Proof.
  intros Hb. induction n as [|n IH]; intros s; simpl.
  - apply related_ret.
  - eapply related_bind; [apply Hb|]. intros s'. apply IH.
Qed.

Lemma related_for_down {St} R (b : Z -> St -> M St) hi s :
  (forall i s, related R R (b i s)) -> related R R (for_down hi b s).
Proof. intros Hb. apply related_iterate_down, Hb. Qed.

(** A loop whose iteration [i] takes [R i] to [R (i + 1)]. *)
Lemma related_for_indexed (R : Z -> heap -> heap -> Prop) (b : Z -> M unit)
    lo hi :
  lo <= hi ->
  (forall i, lo <= i < hi -> related (R i) (R (i + 1)) (b i)) ->
  related (R lo) (R hi) (for_ lo hi b).
Proof.
  intros Hle Hb. unfold for_, for_acc.
  assert (Hgo : forall (n : nat) l u,
             lo <= l -> l + Z.of_nat n <= hi ->
             related (R l) (R (l + Z.of_nat n))
                     (iterate n l (fun i _ => b i) u)).
  { induction n as [|n IH]; intros l u Hl Hh; simpl iterate.
    - rewrite Z.add_0_r. apply related_ret.
    - eapply related_bind; [apply Hb; lia|]. intros u'.
      replace (l + Z.of_nat (S n)) with (l + 1 + Z.of_nat n) by lia.
      apply IH; lia. }
  replace hi with (lo + Z.of_nat (Z.to_nat (hi - lo))) at 1 by lia.
  apply Hgo; lia.
Qed.

(** [h = *heap; *heap = f(h)], going on with [k]. *)
Lemma related_get_put {B} R R' R'' (f : heap -> heap) (k : unit -> M B) :
  (forall h1 h2, R h1 h2 -> R' (f h1) (f h2)) ->
  related R' R'' (k tt) ->
  related R R'' (bind get (fun h => bind (put (f h)) k)).
Proof. intros Hf Hk h1 h2 H. apply Hk, Hf, H. Qed.

Lemma related_modify R R' (f : heap -> heap) :
  (forall h1 h2, R h1 h2 -> R' (f h1) (f h2)) ->
  related R R' (bind get (fun h => put (f h))).
Proof. intros Hf h1 h2 H. split; [reflexivity|]. apply Hf, H. Qed.

(** A value read off the heap. *)
Lemma related_read {A} R (g : heap -> A) :
  (forall h1 h2, R h1 h2 -> g h1 = g h2) ->
  related R R (bind get (fun h => ret (g h))).
Proof. intros Hg h1 h2 H. split; [apply Hg, H|exact H]. Qed.

Lemma related_int R x : related R R (int_ Wrap x).
Proof. apply related_ret. Qed.

Lemma related_long R x : related R R (long_ Wrap x).
Proof. apply related_ret. Qed.

Lemma related_ulong R x : related R R (ulong_ Wrap x).
Proof. apply related_ret. Qed.

Lemma related_mpz_get_ui R z : related R R (mpz_get_ui Wrap z).
Proof. apply related_ret. Qed.

Ltac alike_parts H :=
  destruct H as (He & Hm & Hp & Hq & Hn & Hd & Htn & Htd); simpl in *.

Lemma related_load_matrix len e p q nn nd stage i :
  related (alike len e true p q nn nd) (alike len e true p q nn nd)
          (load_matrix stage i).
Proof.
  intros h1 h2 H. pose proof H as H'. alike_parts H'.
  unfold load_matrix. rewrite Hm.
  destruct (index (matrix h2) stage) as [row|]; [|reflexivity].
  destruct (index row i); [|reflexivity]. split; [reflexivity|exact H].
Qed.

Lemma related_store_matrix len e p q nn nd stage i v :
  related (alike len e true p q nn nd) (alike len e true p q nn nd)
          (store_matrix stage i v).
Proof.
  intros h1 h2 H. alike_parts H.
  unfold store_matrix. rewrite Hm.
  destruct (index (matrix h2) stage) as [row|]; [|reflexivity].
  destruct (update row i v); [|reflexivity].
  split; [reflexivity|]. repeat split; simpl; tauto.
Qed.

Lemma related_store_row len e p q nn nd stage row :
  related (alike len e true p q nn nd) (alike len e true p q nn nd)
          (store_row stage row).
Proof.
  intros h1 h2 H. alike_parts H.
  unfold store_row. rewrite Hm.
  destruct (update (matrix h2) stage row); [|reflexivity].
  split; [reflexivity|]. repeat split; simpl; tauto.
Qed.

Lemma related_load_probabilities len e m q nn nd n :
  related (alike len e m true q nn nd) (alike len e m true q nn nd)
          (load_probabilities n).
Proof.
  intros h1 h2 H. pose proof H as H'. alike_parts H'.
  unfold load_probabilities. rewrite Hp.
  destruct (index (probabilities h2) n); [|reflexivity].
  split; [reflexivity|exact H].
Qed.

Lemma related_store_probabilities len e m q nn nd n v :
  related (alike len e m true q nn nd) (alike len e m true q nn nd)
          (store_probabilities n v).
Proof.
  intros h1 h2 H. alike_parts H.
  unfold store_probabilities. rewrite Hp.
  destruct (update (probabilities h2) n v); [|reflexivity].
  split; [reflexivity|]. repeat split; simpl; tauto.
Qed.

Lemma related_load_permutations len e m p nn nd i :
  related (alike len e m p true nn nd) (alike len e m p true nn nd)
          (load_permutations i).
Proof.
  intros h1 h2 H. pose proof H as H'. alike_parts H'.
  unfold load_permutations. rewrite Hq.
  destruct (index (permutations h2) i); [|reflexivity].
  split; [reflexivity|exact H].
Qed.

Lemma related_store_permutations len e m p nn nd i v :
  related (alike len e m p true nn nd) (alike len e m p true nn nd)
          (store_permutations i v).
Proof.
  intros h1 h2 H. alike_parts H.
  unfold store_permutations. rewrite Hq.
  destruct (update (permutations h2) i v); [|reflexivity].
  split; [reflexivity|]. repeat split; simpl; tauto.
Qed.

Lemma take_insert_next {A} (l : list A) (n : nat) v :
  (n < length l)%nat -> take (S n) (<[n := v]> l) = take n l ++ [v].
Proof.
  intros Hn. rewrite insert_take_drop by exact Hn.
  replace (S n) with (n + 1)%nat by lia.
  rewrite take_app_add' by (rewrite length_take; lia). reflexivity.
Qed.

Lemma related_store_numeratorsResult len e m p q nd i v :
  0 <= i < len ->
  related (alike len e m p q (Z.to_nat i) nd)
          (alike len e m p q (S (Z.to_nat i)) nd)
          (store_numeratorsResult i v).
Proof.
  intros Hi h1 h2 H. alike_parts H.
  unfold store_numeratorsResult. rewrite !update_in_range by lia.
  split; [reflexivity|]. unfold alike. simpl. rewrite !length_insert.
  repeat split; try tauto.
  rewrite !take_insert_next by lia. rewrite Htn. reflexivity.
Qed.

Lemma related_store_denominatorsResult len e m p q nn i v :
  0 <= i < len ->
  related (alike len e m p q nn (Z.to_nat i))
          (alike len e m p q nn (S (Z.to_nat i)))
          (store_denominatorsResult i v).
Proof.
  intros Hi h1 h2 H. alike_parts H.
  unfold store_denominatorsResult. rewrite !update_in_range by lia.
  split; [reflexivity|]. unfold alike. simpl. rewrite !length_insert.
  repeat split; try tauto.
  rewrite !take_insert_next by lia. rewrite Htd. reflexivity.
Qed.

Create HintDb relate.

#[local] Hint Resolve related_ret related_raise related_bind related_if
  related_for_acc related_for related_for_down
  related_int related_long related_ulong related_mpz_get_ui
  related_load_matrix related_store_matrix related_store_row
  related_load_probabilities related_store_probabilities
  related_load_permutations related_store_permutations : relate.

Ltac relate := cbv zeta; eauto 30 with relate.

Lemma createMatrix_related len e m p q nn nd size :
  related (alike len e m p q nn nd) (alike len e true p q nn nd)
          (createMatrix Wrap size).
Proof.
  unfold createMatrix. eapply related_bind; [apply related_int|].
  intros rows. eapply related_get_put; [|relate].
  intros h1 h2 H. alike_parts H. repeat split; simpl; tauto.
Qed.

Lemma getLengthOfProbabilities_related R size :
  related R R (getLengthOfProbabilities Wrap size).
Proof. apply related_ret. Qed.

Lemma getLengthOfPermutations_related R size :
  related R R (getLengthOfPermutations Wrap size).
Proof. apply related_ret. Qed.

#[local] Hint Resolve getLengthOfProbabilities_related
  getLengthOfPermutations_related : relate.

Lemma createProbabilities_related len e m p q nn nd size :
  related (alike len e m p q nn nd) (alike len e m true q nn nd)
          (createProbabilities Wrap size).
Proof.
  unfold createProbabilities.
  eapply related_bind; [apply getLengthOfProbabilities_related|].
  intros n. eapply related_get_put; [|relate].
  intros h1 h2 H. alike_parts H. repeat split; simpl; tauto.
Qed.

Lemma createPermutations_related len e m p q nn nd size :
  related (alike len e m p q nn nd) (alike len e m p true nn nd)
          (createPermutations Wrap size).
Proof.
  unfold createPermutations.
  eapply related_bind; [apply getLengthOfPermutations_related|].
  intros n. apply related_modify.
  intros h1 h2 H. alike_parts H. repeat split; simpl; tauto.
Qed.

Lemma initialiseFirstStage_related len e p q nn nd size numberLower :
  related (alike len e true p q nn nd) (alike len e true p q nn nd)
          (initialiseFirstStage Wrap size numberLower).
Proof. unfold initialiseFirstStage. relate. Qed.

Lemma getNumberCardsLeftAfterDealing_related R size stage :
  related R R (getNumberCardsLeftAfterDealing Wrap size stage).
Proof. unfold getNumberCardsLeftAfterDealing. relate. Qed.

#[local] Hint Resolve initialiseFirstStage_related
  getNumberCardsLeftAfterDealing_related : relate.

Lemma getNumberPathsLeadingTo_related len e p q nn nd size stage numberLower :
  related (alike len e true p q nn nd) (alike len e true p q nn nd)
          (getNumberPathsLeadingTo Wrap size stage numberLower).
Proof. unfold getNumberPathsLeadingTo. relate. Qed.

#[local] Hint Resolve getNumberPathsLeadingTo_related : relate.

Lemma initialiseStage_related len e p q nn nd size stage :
  related (alike len e true p q nn nd) (alike len e true p q nn nd)
          (initialiseStage Wrap size stage).
Proof. unfold initialiseStage. relate. Qed.

#[local] Hint Resolve initialiseStage_related : relate.

Lemma calculateMatrix_related len e p q nn nd size numberPlayable :
  related (alike len e true p q nn nd) (alike len e true p q nn nd)
          (calculateMatrix Wrap size numberPlayable).
Proof. unfold calculateMatrix. relate. Qed.

Lemma getNumberShuffles_related len e m p nn nd size :
  related (alike len e m p true nn nd) (alike len e m p true nn nd)
          (getNumberShuffles Wrap size).
Proof. unfold getNumberShuffles. relate. Qed.

Lemma calculatePermutations_related len e m p nn nd size :
  related (alike len e m p true nn nd) (alike len e m p true nn nd)
          (calculatePermutations Wrap size).
Proof. unfold calculatePermutations. relate. Qed.

Lemma numberFailingCards_related R numberCardsLeft numberLower :
  related R R (numberFailingCards Wrap numberCardsLeft numberLower).
Proof. unfold numberFailingCards. relate. Qed.

Lemma mpq_set_si_related len e m q nn nd n op1 op2 :
  related (alike len e m true q nn nd) (alike len e m true q nn nd)
          (mpq_set_si Wrap n op1 op2).
Proof. unfold mpq_set_si. relate. Qed.

Lemma mpq_canonicalize_related len e m q nn nd n :
  related (alike len e m true q nn nd) (alike len e m true q nn nd)
          (mpq_canonicalize n).
Proof. unfold mpq_canonicalize. relate. Qed.

#[local] Hint Resolve calculateMatrix_related getNumberShuffles_related
  calculatePermutations_related numberFailingCards_related
  mpq_set_si_related mpq_canonicalize_related : relate.

Lemma calculateInitialProbabilities_related len e nn nd size :
  related (alike len e true true true nn nd)
          (alike len e true true true nn nd)
          (calculateInitialProbabilities Wrap size).
Proof. unfold calculateInitialProbabilities. relate. Qed.

Lemma calculateFinalProbability_related len e nn nd size :
  related (alike len e true true true nn nd)
          (alike len e true true true nn nd)
          (calculateFinalProbability Wrap size).
Proof. unfold calculateFinalProbability. relate. Qed.

#[local] Hint Resolve calculateInitialProbabilities_related
  calculateFinalProbability_related : relate.

Lemma calculateInternalProbabilities_related len e nn nd size :
  related (alike len e true true true nn nd)
          (alike len e true true true nn nd)
          (calculateInternalProbabilities Wrap size).
Proof. unfold calculateInternalProbabilities. relate. Qed.

Lemma accumulateProbabilities_related len e m q nn nd size :
  related (alike len e m true q nn nd) (alike len e m true q nn nd)
          (accumulateProbabilities Wrap size).
Proof. unfold accumulateProbabilities. relate. Qed.

Lemma convertToNumeratorsAndDenominators_related len e m q size :
  INT_MIN < size <= INT_MAX -> len = size - 1 ->
  related (alike len e m true q 0 0)
          (alike len e m true q (Z.to_nat len) (Z.to_nat len))
          (convertToNumeratorsAndDenominators Wrap size).
Proof.
  intros Hsize -> h1 h2 H.
  unfold convertToNumeratorsAndDenominators, getLengthOfProbabilities.
  rewrite !(bind_done _ _ _ _ _ (int_exact (size - 1) _ ltac:(int_range))).
  destruct (Z.le_gt_cases 0 (size - 1)) as [Hlen|Hlen].
  - refine (related_for_indexed
              (fun i => alike (size - 1) e m true q (Z.to_nat i) (Z.to_nat i))
              _ 0 (size - 1) Hlen _ h1 h2 H).
    intros i Hi.
    eapply related_bind; [apply related_load_probabilities|]. intros x.
    eapply related_bind; [apply related_mpz_get_ui|]. intros numerator.
    eapply related_bind; [apply related_mpz_get_ui|]. intros denominator.
    replace (Z.to_nat (i + 1)) with (S (Z.to_nat i)) by lia.
    eapply related_bind; [apply related_store_numeratorsResult; lia|].
    intros _. apply related_store_denominatorsResult. lia.
  - rewrite !for_empty by lia.
    replace (Z.to_nat (size - 1)) with 0%nat by lia.
    split; [reflexivity|exact H].
Qed.

Lemma free_matrix_related len e m p q nn nd :
  related (alike len e m p q nn nd) (alike len e m p q nn nd) free_matrix.
Proof.
  apply related_modify. intros h1 h2 H. alike_parts H.
  repeat split; simpl; try tauto. destruct m; trivial.
Qed.

Lemma freeProbabilities_related len e m p q nn nd size :
  related (alike len e m p q nn nd) (alike len e m p q nn nd)
          (freeProbabilities Wrap size).
Proof.
  unfold freeProbabilities.
  eapply related_bind; [apply getLengthOfProbabilities_related|]. intros n.
  apply related_modify. intros h1 h2 H. alike_parts H.
  repeat split; simpl; try tauto. destruct p; trivial.
Qed.

Lemma free_permutations_related len e m p q nn nd :
  related (alike len e m p q nn nd) (alike len e m p q nn nd) free_permutations.
Proof.
  apply related_modify. intros h1 h2 H. alike_parts H.
  repeat split; simpl; try tauto. destruct q; trivial.
Qed.

Lemma calculateProbabilities_related len e m p q size numberLower :
  INT_MIN < size <= INT_MAX -> len = size - 1 ->
  related (alike len e m p q 0 0)
          (alike len e true true true (Z.to_nat len) (Z.to_nat len))
          (calculateProbabilities Wrap size numberLower).
Proof.
  intros Hsize Hlen. unfold calculateProbabilities.
  eapply related_bind; [apply createMatrix_related|]. intros _.
  eapply related_bind; [apply createProbabilities_related|]. intros _.
  eapply related_bind; [apply createPermutations_related|]. intros _.
  eapply related_bind; [apply calculateMatrix_related|]. intros _.
  eapply related_bind; [apply calculatePermutations_related|]. intros _.
  eapply related_bind; [apply calculateInternalProbabilities_related|].
  intros _.
  eapply related_bind; [apply accumulateProbabilities_related|]. intros _.
  eapply related_bind;
    [apply convertToNumeratorsAndDenominators_related; assumption|].
  intros _.
  eapply related_bind; [apply free_matrix_related|]. intros _.
  eapply related_bind; [apply freeProbabilities_related|]. intros _.
  apply free_permutations_related.
Qed.

(** X11.  A round of [main] depends on the query only: from any two
    heaps whose result buffers hold at least [size - 1] cells, whatever
    the tables and buffers hold from earlier rounds, the round prints
    the same pairs or stops on the same fault. *)
Theorem a_round_depends_on_the_query_only
    (size numberLower : Z) (h1 h2 : heap) :
  INT_MIN < size <= INT_MAX ->
  roomy (size - 1) h1 -> roomy (size - 1) h2 ->
  same_answer (main_round size numberLower h1)
              (main_round size numberLower h2).
Proof.
  intros Hsize [Hn1 Hd1] [Hn2 Hd2].
  assert (H : alike (size - 1) false false false false 0 0 h1 h2).
  { repeat split; assumption. }
  assert (Hround : related (alike (size - 1) false false false false 0 0)
                     (alike (size - 1) false true true true
                            (Z.to_nat (size - 1)) (Z.to_nat (size - 1)))
                     (main_round size numberLower)).
  { unfold main_round. destruct (size <=? MAX_SIZE); [|apply related_raise].
    clear H. intros h1' h2' H.
    unfold getLengthOfProbabilities.
    rewrite !(bind_done _ _ _ _ _ (int_exact (size - 1) _ ltac:(int_range))).
    revert h1' h2' H.
    eapply related_bind;
      [apply calculateProbabilities_related; [exact Hsize|reflexivity]|].
    intros _.
    apply (related_read _
             (fun h => take (Z.to_nat (size - 1))
                            (zip (numeratorsResult h) (denominatorsResult h)))).
    intros h1' h2' H. alike_parts H.
    rewrite !zip_with_take. rewrite Htn, Htd. reflexivity. }
  specialize (Hround h1 h2 H). unfold same_answer.
  destruct (main_round size numberLower h1), (main_round size numberLower h2);
    try contradiction.
  - apply Hround.
  - exact Hround.
Qed.

Lemma a_round_depends_on_the_query_only_witness :
  same_answer
    (main_round 3 1 main_heap)
    (main_round 3 1 (Heap [[5]] [Mpq 1 1] [4] [1; 2; 3] [4; 5])).
Proof.
  apply (a_round_depends_on_the_query_only 3 1 main_heap
           (Heap [[5]] [Mpq 1 1] [4] [1; 2; 3] [4; 5]));
    [unfold INT_MIN, INT_MAX, int_half; lia
    |split; simpl; lia | split; simpl; lia].
Defined.

(** The run of a query, from the two buffers its caller allocates. *)
Lemma run_from_fresh_buffers size numberLower :
  INT_MIN < size <= INT_MAX ->
  run size numberLower
  = (calculateProbabilities Wrap size numberLower ;;
     h' <- get ;;
     ret (zip (numeratorsResult h') (denominatorsResult h')))
      (Heap [] [] [] (calloc (size - 1) 0) (calloc (size - 1) 0)).
Proof.
  intros Hsize.
  unfold run, computeProbabilities, createProbabilitiesResult,
    getLengthOfProbabilities.
  rewrite !bind_bind.
  rewrite (bind_done _ _ _ _ _ (int_exact (size - 1) _ ltac:(int_range))).
  cbv beta. unfold ret at 1. unfold bind at 1. rewrite !bind_bind.
  rewrite (bind_done _ _ _ _ _ (int_exact (size - 1) _ ltac:(int_range))).
  reflexivity.
Qed.

(** X12.  For every [size <= MAX_SIZE] (above [INT_MIN]) and result
    buffers of at least [size - 1] cells, a round of [main] prints
    exactly the pairs that a caller with freshly allocated buffers of
    [size - 1] cells reads back, or stops on the same fault. *)
Theorem main_prints_what_the_interface_computes
    (size numberLower : Z) (h : heap) :
  INT_MIN < size <= MAX_SIZE -> roomy (size - 1) h ->
  same_answer (main_round size numberLower h) (run size numberLower).
Proof.
  intros Hsize [Hn Hd].
  assert (Hint : INT_MIN < size <= INT_MAX)
    by (unfold MAX_SIZE in Hsize; int_range).
  rewrite (run_from_fresh_buffers size numberLower Hint).
  set (h0 := Heap [] [] [] (calloc (size - 1) 0) (calloc (size - 1) 0)).
  assert (H : alike (size - 1) true false false false 0 0 h h0).
  { unfold alike, h0, calloc. simpl. rewrite !length_replicate.
    repeat split; try assumption; lia. }
  pose proof (calculateProbabilities_related (size - 1) true false false false
                size numberLower Hint eq_refl h h0 H) as Hrun.
  unfold main_round.
  assert (E : (size <=? MAX_SIZE) = true) by (apply Z.leb_le; lia).
  rewrite E. unfold getLengthOfProbabilities.
  rewrite (bind_done _ _ _ _ _ (int_exact (size - 1) _ ltac:(int_range))).
  unfold bind at 1 3.
  destruct (calculateProbabilities Wrap size numberLower h) as [[] h1|f1 h1],
    (calculateProbabilities Wrap size numberLower h0) as [[] h2|f2 h2];
    try contradiction.
  - destruct Hrun as [_ Hrun]. clear Hn Hd H.
    alike_parts Hrun. destruct He as [He1 He2].
    rewrite zip_with_take, Htn, Htd.
    rewrite !take_ge by lia. reflexivity.
  - exact Hrun.
Qed.

Lemma main_prints_what_the_interface_computes_witness :
  same_answer (main_round 3 1 main_heap) (run 3 1).
Proof.
  apply (main_prints_what_the_interface_computes 3 1 main_heap);
    [unfold INT_MIN, MAX_SIZE, int_half; lia | split; simpl; lia].
Defined.

(** ** Symmetry *)

(** X13.  For [3 <= size <= 13] the answer to a query is symmetric in
    the two sides: [numberLower] and [size - numberLower] give the same
    pairs. *)
Theorem answers_are_symmetric (size numberLower : Z) :
  3 <= size <= 13 -> 0 <= numberLower <= size ->
  result (run size numberLower) = result (run size (size - numberLower)).
Proof.
  apply (on_inputs 3 13
           (fun s n => (result (run s n), result (run s (s - n))))
           (fun x => fst x = snd x)).
  vm_cast_no_check (eq_refl true).
Qed.

Lemma answers_are_symmetric_witness :
  result (run 13 4) = result (run 13 (13 - 4)).
Proof. apply (answers_are_symmetric 13 4); lia. Defined.

(** ** What the reported fractions count *)

(** X14.  For [3 <= size <= 13] and a valid [numberLower] the run
    reports one pair per row of the path-count table, and the pair
    reported at index [n] stands for the total of row [n] of the
    path-count table over the number of ways to deal [n + 1] cards in
    order: the share of the deals of [n + 1] cards that are predicted
    correctly throughout. *)
Theorem reported_fractions_are_row_totals_over_deals (size numberLower : Z) :
  3 <= size <= 13 -> 0 <= numberLower <= size ->
  returns (fun v =>
             Forall2 (fun p q => (fraction p == q)%Q) v
               (survival_ratios size
                  (matrix (final (after_matrix size numberLower)))))
          (run size numberLower).
Proof.
  apply (on_inputs 3 13
           (fun s n => (run s n,
                        survival_ratios s (matrix (final (after_matrix s n)))))
           (fun x => returns (fun v =>
                                Forall2 (fun p q => (fraction p == q)%Q)
                                        v (snd x))
                             (fst x))).
  vm_cast_no_check (eq_refl true).
Qed.

Lemma reported_fractions_are_row_totals_over_deals_witness :
  returns (fun v =>
             Forall2 (fun p q => (fraction p == q)%Q) v
               (survival_ratios 13 (matrix (final (after_matrix 13 4)))))
          (run 13 4).
Proof.
  apply (reported_fractions_are_row_totals_over_deals 13 4); lia.
Defined.

(** ** What a printed pair looks like *)

(** X18.  For [3 <= size <= 13] and a valid [numberLower] every reported
    pair has a numerator above zero and at most the denominator, and
    the two have no common divisor: no reported probability is zero
    ([printOdds] of [main.c] divides by the numerator). *)
Theorem reported_pairs_are_positive_and_reduced (size numberLower : Z) :
  3 <= size <= 13 -> 0 <= numberLower <= size ->
  returns (Forall (fun p => 0 < fst p <= snd p /\ Z.gcd (fst p) (snd p) = 1))
          (run size numberLower).
Proof.
  apply (on_inputs 3 13 run
           (returns (Forall (fun p => 0 < fst p <= snd p /\
                                      Z.gcd (fst p) (snd p) = 1)))).
  vm_cast_no_check (eq_refl true).
Qed.

Lemma reported_pairs_are_positive_and_reduced_witness :
  returns (Forall (fun p => 0 < fst p <= snd p /\ Z.gcd (fst p) (snd p) = 1))
          (run 13 4).
Proof. apply (reported_pairs_are_positive_and_reduced 13 4); lia. Defined.
